(** * TriviaNightsPinas: stage progression and scoring engine

    A shallow embedding of [services/gameLogic.ts] (score aggregation, dense
    ranking, season standings, team history) and of the stage handlers of the
    [LiveGame] component (record / advance / retreat, game-over test, final
    summary table), followed by the properties the specification states about
    them.

    Modelling conventions.
    - A JavaScript [number] is an integer of [Z]: every point value the
      program stores goes through [parseInt(..) || 0] or integer [+]/[-].
    - A plain object used as a dictionary ([Record<string, T>]) is an
      association list in property-creation order: writing an existing key
      replaces the value where it stands, writing a new key appends.  Keys are
      opaque identifiers ([crypto.randomUUID()]); they are assumed to be
      neither array indices (which JavaScript enumerates first) nor names
      inherited from [Object.prototype].  The general properties below are
      stated through lookups, so they do not depend on enumeration order.
    - [Array.prototype.sort] is stable; it is modelled by a stable insertion
      sort driven by the same numeric comparator as in the source. *)

From stdpp Require Import base numbers list strings sorting gmap.

Open Scope Z_scope.

(** ** Constants ([gameLogic.ts]) *)

Definition SETS_PER_GAME : Z := 4.
Definition CATEGORIES_PER_SET : Z := 3.
Definition QUESTIONS_PER_CATEGORY : Z := 8.

(** ** JavaScript objects used as dictionaries *)

Module JsObj.
Section dict.
Context {V : Type}.

(** [o[k]], [None] standing for [undefined]. *)
Fixpoint get (o : list (string * V)) (k : string) : option V :=
  match o with
  | [] => None
  | (k', v) :: o' => if decide (k' = k) then Some v else get o' k
  end.

(** [o[k] = v]. *)
Fixpoint put (o : list (string * V)) (k : string) (v : V) : list (string * V) :=
  match o with
  | [] => [(k, v)]
  | (k', v') :: o' =>
      if decide (k' = k) then (k, v) :: o' else (k', v') :: put o' k v
  end.

Definition keys (o : list (string * V)) : list string := o.*1.
Definition values (o : list (string * V)) : list V := o.*2.
Definition entries (o : list (string * V)) : list (string * V) := o.
End dict.
End JsObj.

(** ** Arrays *)

(** [xs.sort(cmp)]: [x] moves behind [y] only when [cmp x y > 0]. *)
Fixpoint sortInsert {A} (cmp : A → A → Z) (x : A) (l : list A) : list A :=
  match l with
  | [] => [x]
  | y :: l' => if 0 <? cmp x y then y :: sortInsert cmp x l' else x :: l
  end.

Definition sort {A} (cmp : A → A → Z) (l : list A) : list A :=
  foldr (sortInsert cmp) [] l.

(** [Array.from(new Set(xs))]: first occurrences, in order. *)
Definition uniqueValues (xs : list Z) : list Z :=
  foldl (λ acc x, if decide (x ∈ acc) then acc else acc ++ [x]) [] xs.

(** [xs.indexOf(x)] *)
Definition indexOf (xs : list Z) (x : Z) : Z :=
  match list_find (λ y, y = x) xs with
  | Some (i, _) => Z.of_nat i
  | None => -1
  end.

(** [xs.includes(x)] *)
Definition includes (xs : list string) (x : string) : bool :=
  bool_decide (x ∈ xs).

(** ** Data model ([types.ts]) *)

Module Member.
Record t := mk { name : string; contact : option string }.
End Member.

Module Team.
Record t := mk {
  id : string;
  name : string;
  leader : string;
  leaderContact : option string;
  members : list Member.t;
  isArchived : option bool;
}.
End Team.

Inductive Gender := Male | Female | Other.

Module Host.
Record t := mk {
  id : string;
  name : string;
  teamId : option string;
  gender : option Gender;
  age : option Z;
}.
End Host.

Inductive GameType := Regular | Special.
Inductive GameStatus := Upcoming | Live | Archived.
Inductive CategoryType := Text | Picture | Audio | Others.

Global Instance GameType_eq_dec : EqDecision GameType.
Proof. solve_decision. Defined.
Global Instance GameStatus_eq_dec : EqDecision GameStatus.
Proof. solve_decision. Defined.

Module QuestionResult.
Record t := mk {
  setId : Z;
  categoryId : Z;
  questionIndex : Z;
  correctTeamIds : list string;
  points : Z;
}.

(** The composite coordinate an entry is stored under. *)
Definition key (r : t) : Z * Z * Z := (setId r, categoryId r, questionIndex r).
End QuestionResult.

(** Modelled from the spec: the [ManualAdjustment] interface, which
    [LiveGame] imports but the [types.ts] at hand does not declare.  The
    fields are those of section 3 of the specification, named as
    [saveAdjustment] writes them. *)
Module ManualAdjustment.
Record t := mk {
  id : string;
  teamId : string;
  points : Z;
  setId : Z;
  reason : string;
  timestamp : string;
}.
End ManualAdjustment.

Module CategoryConfig.
Record t := mk { name : string; type : CategoryType }.
End CategoryConfig.

Module GameFeedback.
Record t := mk {
  teamId : string;
  rating : Z;
  remarks : option string;
  memorableCategoryKey : option string;
}.
End GameFeedback.

Module Stage.
Record t := mk { set : Z; category : Z; question : Z }.
End Stage.

(** [manualAdjustments] and [countInRoyalty] are optional fields that
    [gameLogic.ts] and [LiveGame] read; [None] is [undefined]. *)
Module Game.
Record t := mk {
  id : string;
  seasonId : string;
  hostIds : list string;
  type : GameType;
  title : string;
  date : string;
  status : GameStatus;
  participatingTeamIds : list string;
  hasBonusRound : bool;
  categoryPoints : list (string * Z);
  categoryConfigs : list (string * CategoryConfig.t);
  stickyPoints : option Z;
  currentStage : Stage.t;
  results : list QuestionResult.t;
  manualAdjustments : option (list ManualAdjustment.t);
  countInRoyalty : option bool;
  feedback : option (list GameFeedback.t);
}.

(** [{...game, currentStage: s}] *)
Definition withStage (g : t) (s : Stage.t) : t :=
  mk (id g) (seasonId g) (hostIds g) (type g) (title g) (date g) (status g)
     (participatingTeamIds g) (hasBonusRound g) (categoryPoints g)
     (categoryConfigs g) (stickyPoints g) s (results g)
     (manualAdjustments g) (countInRoyalty g) (feedback g).

(** [{...game, results: rs, stickyPoints: p, currentStage: s}] *)
Definition withRecorded (g : t) (rs : list QuestionResult.t) (p : Z)
    (s : Stage.t) : t :=
  mk (id g) (seasonId g) (hostIds g) (type g) (title g) (date g) (status g)
     (participatingTeamIds g) (hasBonusRound g) (categoryPoints g)
     (categoryConfigs g) (Some p) s rs
     (manualAdjustments g) (countInRoyalty g) (feedback g).
End Game.

Module RoyaltyStandings.
Record t := mk {
  teamId : string;
  teamName : string;
  points : Z;
  gamesPlayed : Z;
  wins : Z;
}.
End RoyaltyStandings.

(** ** Score aggregation ([gameLogic.ts]) *)

(** [if (scores[teamId] !== undefined) scores[teamId] += p] *)
Definition addIfPresent (scores : list (string * Z)) (teamId : string) (p : Z)
    : list (string * Z) :=
  match JsObj.get scores teamId with
  | Some v => JsObj.put scores teamId (v + p)
  | None => scores
  end.

Definition calculateGameScores (game : Game.t) : list (string * Z) :=
  let scores := foldl (λ scores tId, JsObj.put scores tId 0) []
                      (Game.participatingTeamIds game) in
  let scores :=
    foldl (λ scores res,
             foldl (λ scores teamId,
                      addIfPresent scores teamId (QuestionResult.points res))
                   scores (QuestionResult.correctTeamIds res))
          scores (Game.results game) in
  match Game.manualAdjustments game with
  | Some adjs =>
      foldl (λ scores adj,
               addIfPresent scores (ManualAdjustment.teamId adj)
                            (ManualAdjustment.points adj))
            scores adjs
  | None => scores
  end.

(** ** Dense ranking, as both callers compute it *)

(** [Array.from(new Set(Object.values(scores))).sort((a,b) => b-a)] *)
Definition uniqueScores (scores : list (string * Z)) : list Z :=
  sort (λ a b, b - a) (uniqueValues (JsObj.values scores)).

(** [uniqueScores.indexOf(score) + 1] *)
Definition rankOf (scores : list (string * Z)) (score : Z) : Z :=
  indexOf (uniqueScores scores) score + 1.

(** [x || d] on a possibly missing number: [undefined] and [0] are falsy. *)
Definition orElse (x : option Z) (d : Z) : Z :=
  match x with
  | Some v => if decide (v = 0) then d else v
  | None => d
  end.

(** ** Team history ([gameLogic.ts]) *)

Module HistoryEntry.
Record t := mk {
  game : Game.t;
  score : Z;
  rank : Z;
  hostName : string;
}.
End HistoryEntry.

(** [hosts.find(h => h.id === hid)?.name], kept only when truthy. *)
Definition hostNameOf (hosts : list Host.t) (hid : string) : option string :=
  match list_find (λ h, Host.id h = hid) hosts with
  | Some (_, h) => if decide (Host.name h = "") then None else Some (Host.name h)
  | None => None
  end.

Definition historyEntry (teamId : string) (hosts : option (list Host.t))
    (game : Game.t) : HistoryEntry.t :=
  let scores := calculateGameScores game in
  let score := orElse (JsObj.get scores teamId) 0 in
  let rank := rankOf scores score in
  let hostName :=
    match hosts with
    | Some hs =>
        if bool_decide (0 < length (Game.hostIds game))%nat then
          let names := omap (hostNameOf hs) (Game.hostIds game) in
          if bool_decide (0 < length names)%nat
          then String.concat ", " names else "Unknown"
        else "Unknown"
    | None => "Unknown"
    end in
  HistoryEntry.mk game score rank hostName.

Section history.
(** [new Date(s).getTime()]; date parsing belongs to the host platform. *)
Variable getTime : string → Z.

Definition getTeamHistory (teamId : string) (games : list Game.t)
    (hosts : option (list Host.t)) : list HistoryEntry.t :=
  let history :=
    historyEntry teamId hosts <$>
      filter (λ g, Game.status g = Archived
                   ∧ includes (Game.participatingTeamIds g) teamId = true)
             games in
  sort (λ a b, getTime (Game.date (HistoryEntry.game b))
               - getTime (Game.date (HistoryEntry.game a)))
       history.
End history.

(** ** Season standings ([gameLogic.ts]) *)

(** The filter of [calculateSeasonStandings]. *)
Definition isSeasonGame (seasonId : string) (g : Game.t) : bool :=
  bool_decide (Game.seasonId g = seasonId)
  && bool_decide (Game.status g = Archived)
  && match Game.countInRoyalty g with
     | Some flag => flag
     | None => bool_decide (Game.type g = Regular)
     end.

Definition addPoints (s : RoyaltyStandings.t) (n : Z) : RoyaltyStandings.t :=
  RoyaltyStandings.mk (RoyaltyStandings.teamId s) (RoyaltyStandings.teamName s)
    (RoyaltyStandings.points s + n) (RoyaltyStandings.gamesPlayed s)
    (RoyaltyStandings.wins s).

Definition addGamesPlayed (s : RoyaltyStandings.t) (n : Z) : RoyaltyStandings.t :=
  RoyaltyStandings.mk (RoyaltyStandings.teamId s) (RoyaltyStandings.teamName s)
    (RoyaltyStandings.points s) (RoyaltyStandings.gamesPlayed s + n)
    (RoyaltyStandings.wins s).

Definition addWins (s : RoyaltyStandings.t) (n : Z) : RoyaltyStandings.t :=
  RoyaltyStandings.mk (RoyaltyStandings.teamId s) (RoyaltyStandings.teamName s)
    (RoyaltyStandings.points s) (RoyaltyStandings.gamesPlayed s)
    (RoyaltyStandings.wins s + n).

(** What one participation does to a team's standings record, given the
    team's rank in that game. *)
Definition applyRank (s : RoyaltyStandings.t) (teamRank : Z) : RoyaltyStandings.t :=
  let s := addGamesPlayed s 1 in
  let s := addPoints s 1 in
  if decide (teamRank = 1) then addWins (addPoints s 10) 1
  else if decide (teamRank = 2) then addPoints s 5
  else if decide (teamRank = 3) then addPoints s 3
  else s.

(** The body of [sortedTeams.forEach(([teamId, score], index) => ...)]. *)
Definition creditTeam (scores : list (string * Z))
    (standingsMap : list (string * RoyaltyStandings.t)) (entry : string * Z)
    : list (string * RoyaltyStandings.t) :=
  match JsObj.get standingsMap entry.1 with
  | None => standingsMap
  | Some s => JsObj.put standingsMap entry.1 (applyRank s (rankOf scores entry.2))
  end.

(** The body of [seasonGames.forEach(game => ...)]. *)
Definition creditGame (standingsMap : list (string * RoyaltyStandings.t))
    (game : Game.t) : list (string * RoyaltyStandings.t) :=
  let scores := calculateGameScores game in
  let sortedTeams := sort (λ a b : string * Z, b.2 - a.2) (JsObj.entries scores) in
  if decide (length sortedTeams = 0%nat) then standingsMap
  else foldl (creditTeam scores) standingsMap sortedTeams.

Definition initialStandings (teams : list Team.t)
    : list (string * RoyaltyStandings.t) :=
  foldl (λ standingsMap team,
           JsObj.put standingsMap (Team.id team)
             (RoyaltyStandings.mk (Team.id team) (Team.name team) 0 0 0))
        [] teams.

Definition seasonStandingsMap (seasonId : string) (games : list Game.t)
    (teams : list Team.t) : list (string * RoyaltyStandings.t) :=
  let seasonGames := filter (λ g, isSeasonGame seasonId g = true) games in
  foldl creditGame (initialStandings teams) seasonGames.

Definition calculateSeasonStandings (seasonId : string) (games : list Game.t)
    (teams : list Team.t) : list RoyaltyStandings.t :=
  sort (λ a b, RoyaltyStandings.points b - RoyaltyStandings.points a)
       (JsObj.values (seasonStandingsMap seasonId games teams)).

(** ** The live scorer ([LiveGame] component) *)

Inductive ViewMode := Scorer | Scoreboard | Report | Feedback | Summary | SetSummary.

Module LiveGame.
(** The [game] prop together with the component state the handlers read. *)
Record t := mk {
  game : Game.t;
  currentSelection : list string;
  manualPoints : option Z;
  viewMode : ViewMode;
}.
End LiveGame.

(** [r.setId === set && r.categoryId === category && r.questionIndex === question] *)
Definition atStage (s : Stage.t) (r : QuestionResult.t) : Prop :=
  QuestionResult.setId r = Stage.set s
  ∧ QuestionResult.categoryId r = Stage.category s
  ∧ QuestionResult.questionIndex r = Stage.question s.

Global Instance atStage_dec s r : Decision (atStage s r).
Proof. unfold atStage. apply _. Defined.

(** The effect that keeps the selection in step with the current stage; it
    runs whenever the stage or the results array changes.  The source loads
    the credited teams into a [Set]; the entries [handleNext] writes come from
    such a set, so their teams are distinct and are copied as they are. *)
Definition syncSelection (game : Game.t) (viewMode : ViewMode) : LiveGame.t :=
  match list_find (atStage (Game.currentStage game)) (Game.results game) with
  | Some (_, existingResult) =>
      LiveGame.mk game (QuestionResult.correctTeamIds existingResult)
                  (Some (QuestionResult.points existingResult)) viewMode
  | None => LiveGame.mk game [] None viewMode
  end.

(** [manualPoints !== null ? manualPoints : (game.stickyPoints || 1)] *)
Definition currentPoints (st : LiveGame.t) : Z :=
  match LiveGame.manualPoints st with
  | Some p => p
  | None => orElse (Game.stickyPoints (LiveGame.game st)) 1
  end.

Definition toggleTeam (st : LiveGame.t) (teamId : string) : LiveGame.t :=
  let cur := LiveGame.currentSelection st in
  let next := if includes cur teamId
              then filter (λ x, x ≠ teamId) cur else cur ++ [teamId] in
  LiveGame.mk (LiveGame.game st) next (LiveGame.manualPoints st)
              (LiveGame.viewMode st).

Definition setManualPoints (st : LiveGame.t) (p : Z) : LiveGame.t :=
  LiveGame.mk (LiveGame.game st) (LiveGame.currentSelection st) (Some p)
              (LiveGame.viewMode st).

(** The borrow arithmetic of [handlePrevious]; the set may come out negative. *)
Definition previousStage (stage : Stage.t) : Stage.t :=
  let nextQ := Stage.question stage - 1 in
  let nextCat := Stage.category stage in
  let nextSet := Stage.set stage in
  if nextQ <? 0 then
    let nextQ := QUESTIONS_PER_CATEGORY - 1 in
    let nextCat := nextCat - 1 in
    if nextCat <? 0 then Stage.mk (nextSet - 1) (CATEGORIES_PER_SET - 1) nextQ
    else Stage.mk nextSet nextCat nextQ
  else Stage.mk nextSet nextCat nextQ.

Definition handlePrevious (st : LiveGame.t) : LiveGame.t :=
  let game := LiveGame.game st in
  let target := previousStage (Game.currentStage game) in
  if Stage.set target <? 0 then st
  else syncSelection (Game.withStage game target) (LiveGame.viewMode st).

(** Step 1 of [handleNext]: the entry for the current stage. *)
Definition currentResult (st : LiveGame.t) : QuestionResult.t :=
  let stage := Game.currentStage (LiveGame.game st) in
  QuestionResult.mk (Stage.set stage) (Stage.category stage)
    (Stage.question stage) (LiveGame.currentSelection st) (currentPoints st).

(** Step 2 of [handleNext]: replace the entry of the stage, or append. *)
Definition recordResult (results : list QuestionResult.t) (stage : Stage.t)
    (result : QuestionResult.t) : list QuestionResult.t :=
  match list_find (atStage stage) results with
  | Some (existingIndex, _) => <[existingIndex := result]> results
  | None => results ++ [result]
  end.

(** Step 3 of [handleNext]. *)
Definition nextStage (stage : Stage.t) : Stage.t :=
  let nextSet := Stage.set stage in
  let nextCat := Stage.category stage in
  let nextQ := Stage.question stage + 1 in
  if QUESTIONS_PER_CATEGORY <=? nextQ then
    let nextCat := nextCat + 1 in
    if CATEGORIES_PER_SET <=? nextCat then Stage.mk (nextSet + 1) 0 0
    else Stage.mk nextSet nextCat 0
  else Stage.mk nextSet nextCat nextQ.

(** Step 4 of [handleNext]: [nextSet > set]. *)
Definition isEndOfSet (stage : Stage.t) : bool :=
  Stage.set stage <? Stage.set (nextStage stage).

Definition handleNext (st : LiveGame.t) : LiveGame.t :=
  let game := LiveGame.game st in
  let stage := Game.currentStage game in
  let newResults := recordResult (Game.results game) stage (currentResult st) in
  let updatedGame :=
    Game.withRecorded game newResults (currentPoints st) (nextStage stage) in
  syncSelection updatedGame
    (if isEndOfSet stage then SetSummary else LiveGame.viewMode st).

Definition isGameOver (game : Game.t) : bool :=
  let set := Stage.set (Game.currentStage game) in
  negb (Game.hasBonusRound game) && (SETS_PER_GAME <=? set)
  || Game.hasBonusRound game && (SETS_PER_GAME <? set).

(** What the operator can do on the scorer screen. *)
Inductive Action :=
| ToggleTeam (teamId : string)
| SetManualPoints (p : Z)
| Next
| Previous.

Definition act (st : LiveGame.t) (a : Action) : LiveGame.t :=
  match a with
  | ToggleTeam teamId => toggleTeam st teamId
  | SetManualPoints p => setManualPoints st p
  | Next => handleNext st
  | Previous => handlePrevious st
  end.

Definition run (st : LiveGame.t) (actions : list Action) : LiveGame.t :=
  foldl act st actions.

(** ** Final summary table ([LiveGame] component) *)

Module SummaryRow.
Record t := mk { team : Team.t; setScores : list Z; total : Z }.
End SummaryRow.

(** [Array.from({length: SETS_PER_GAME + (game.hasBonusRound ? 1 : 0)}, (_, i) => i)] *)
Definition setIndices (game : Game.t) : list Z :=
  Z.of_nat <$>
    seq 0 (Z.to_nat (SETS_PER_GAME + (if Game.hasBonusRound game then 1 else 0))).

(** [game.manualAdjustments || []] *)
Definition adjustmentsOf (game : Game.t) : list ManualAdjustment.t :=
  default [] (Game.manualAdjustments game).

(** The score a team is shown for one set. *)
Definition setScoreOf (game : Game.t) (teamId : string) (setId : Z) : Z :=
  let setResults :=
    filter (λ r, QuestionResult.setId r = setId) (Game.results game) in
  let setScore :=
    foldl (λ setScore r,
             if includes (QuestionResult.correctTeamIds r) teamId
             then setScore + QuestionResult.points r else setScore)
          0 setResults in
  let adjPoints :=
    foldl (λ sum a, sum + ManualAdjustment.points a) 0
      (filter (λ a, ManualAdjustment.setId a = setId
                    ∧ ManualAdjustment.teamId a = teamId)
              (adjustmentsOf game)) in
  setScore + adjPoints.

Definition summaryRow (game : Game.t) (team : Team.t) : SummaryRow.t :=
  let '(setScores, total) :=
    foldl (λ '(setScores, total) setId,
             let setScore := setScoreOf game (Team.id team) setId in
             (setScores ++ [setScore], total + setScore))
          ([], 0) (setIndices game) in
  SummaryRow.mk team setScores total.

Definition gameTeams (teams : list Team.t) (game : Game.t) : list Team.t :=
  filter (λ t, includes (Game.participatingTeamIds game) (Team.id t) = true) teams.

(** [gameTeams.sort(...)].  The source sorts the memoised [gameTeams] array in
    place, so teams with equal scores keep the order of the previous render;
    here they keep the roster order. *)
Definition rankedTeams (teams : list Team.t) (game : Game.t) : list Team.t :=
  let scores := calculateGameScores game in
  sort (λ a b, orElse (JsObj.get scores (Team.id b)) 0
               - orElse (JsObj.get scores (Team.id a)) 0)
       (gameTeams teams game).

Definition tableData (teams : list Team.t) (game : Game.t) : list SummaryRow.t :=
  summaryRow game <$> rankedTeams teams game.

(** ** Sample data for the worked examples *)

Definition sampleGame (type : GameType) (status : GameStatus)
    (countInRoyalty : option bool) (hasBonusRound : bool) (stage : Stage.t)
    (teamIds : list string) (results : list QuestionResult.t) : Game.t :=
  Game.mk "g1" "s1" ["h1"] type "Regular Game" "2024-05-01" status teamIds
    hasBonusRound [] [] None stage results None countInRoyalty None.

Definition sampleTeam (id : string) : Team.t := Team.mk id id "" None [] None.

(** A ledger that yields the scores {A:10, B:10, C:5, D:5, E:1}. *)
Definition fiveTeamGame : Game.t :=
  sampleGame Regular Archived None false (Stage.mk 0 0 3)
    ["A"; "B"; "C"; "D"; "E"]
    [QuestionResult.mk 0 0 0 ["A"; "B"; "C"; "D"; "E"] 1;
     QuestionResult.mk 0 0 1 ["A"; "B"; "C"; "D"] 4;
     QuestionResult.mk 0 0 2 ["A"; "B"] 5].

(** A ledger that yields the scores {A:50, B:50, C:30}. *)
Definition threeTeamGame : Game.t :=
  sampleGame Regular Archived None false (Stage.mk 0 0 2)
    ["A"; "B"; "C"]
    [QuestionResult.mk 0 0 0 ["A"; "B"; "C"] 30;
     QuestionResult.mk 0 0 1 ["A"; "B"] 20].

(** The scorer on a fresh question of [game]. *)
Definition scorerAt (game : Game.t) : LiveGame.t := LiveGame.mk game [] None Scorer.

(** ** Specification-side notions *)

(** The number of distinct score values of a mapping strictly above [score]. *)
Definition distinctAbove (scores : list (string * Z)) (score : Z) : nat :=
  size (filter (λ v, score < v) (list_to_set (C:=gset Z) (JsObj.values scores))).

(** [Σ f] over a list. *)
Definition sumOver {A} (f : A → Z) (l : list A) : Z :=
  foldr (λ x acc, f x + acc) 0 l.

(** What one ledger entry is worth to a team in [calculateGameScores]: its
    points once per occurrence of the team among the credited teams. *)
Definition entryWorth (t : string) (r : QuestionResult.t) : Z :=
  sumOver (λ k : string, if decide (k = t) then QuestionResult.points r else 0)
          (QuestionResult.correctTeamIds r).

Definition adjustmentWorth (t : string) (a : ManualAdjustment.t) : Z :=
  if decide (ManualAdjustment.teamId a = t) then ManualAdjustment.points a else 0.

(** The whole-game total of a team, in closed form. *)
Definition gameTotal (game : Game.t) (t : string) : Z :=
  sumOver (entryWorth t) (Game.results game)
  + sumOver (adjustmentWorth t) (adjustmentsOf game).

(** Point resolution as the specification words it: the explicit value, else
    the sticky value whenever one exists, else 1. *)
Definition specCurrentPoints (st : LiveGame.t) : Z :=
  match LiveGame.manualPoints st with
  | Some p => p
  | None => default 1 (Game.stickyPoints (LiveGame.game st))
  end.

(** The coordinates under which the ledger entries are stored. *)
Definition ledgerKeys (game : Game.t) : list (Z * Z * Z) :=
  QuestionResult.key <$> Game.results game.

Definition stageKey (stage : Stage.t) : Z * Z * Z :=
  (Stage.set stage, Stage.category stage, Stage.question stage).

(** Every record of the standings map sits under its own team identifier. *)
Definition keyed (standingsMap : list (string * RoyaltyStandings.t)) : Prop :=
  Forall (λ e, RoyaltyStandings.teamId e.2 = e.1) standingsMap.

(** ** Further handlers of the [LiveGame] component *)

(** [{...game, participatingTeamIds: ids}] *)
Definition withParticipants (g : Game.t) (ids : list string) : Game.t :=
  Game.mk (Game.id g) (Game.seasonId g) (Game.hostIds g) (Game.type g)
    (Game.title g) (Game.date g) (Game.status g) ids (Game.hasBonusRound g)
    (Game.categoryPoints g) (Game.categoryConfigs g) (Game.stickyPoints g)
    (Game.currentStage g) (Game.results g) (Game.manualAdjustments g)
    (Game.countInRoyalty g) (Game.feedback g).

(** [{...game, manualAdjustments: adjs}] *)
Definition withAdjustments (g : Game.t) (adjs : list ManualAdjustment.t) : Game.t :=
  Game.mk (Game.id g) (Game.seasonId g) (Game.hostIds g) (Game.type g)
    (Game.title g) (Game.date g) (Game.status g) (Game.participatingTeamIds g)
    (Game.hasBonusRound g) (Game.categoryPoints g) (Game.categoryConfigs g)
    (Game.stickyPoints g) (Game.currentStage g) (Game.results g) (Some adjs)
    (Game.countInRoyalty g) (Game.feedback g).

(** [{...game, hasBonusRound: b}] *)
Definition withBonusRound (g : Game.t) (b : bool) : Game.t :=
  Game.mk (Game.id g) (Game.seasonId g) (Game.hostIds g) (Game.type g)
    (Game.title g) (Game.date g) (Game.status g) (Game.participatingTeamIds g)
    b (Game.categoryPoints g) (Game.categoryConfigs g)
    (Game.stickyPoints g) (Game.currentStage g) (Game.results g)
    (Game.manualAdjustments g) (Game.countInRoyalty g) (Game.feedback g).

(** [{...game, status: 'Archived', feedback: fb}] *)
Definition withArchived (g : Game.t) (fb : list GameFeedback.t) : Game.t :=
  Game.mk (Game.id g) (Game.seasonId g) (Game.hostIds g) (Game.type g)
    (Game.title g) (Game.date g) Archived (Game.participatingTeamIds g)
    (Game.hasBonusRound g) (Game.categoryPoints g) (Game.categoryConfigs g)
    (Game.stickyPoints g) (Game.currentStage g) (Game.results g)
    (Game.manualAdjustments g) (Game.countInRoyalty g) (Some fb).

(** [{...g, status: 'Live', participatingTeamIds: ids}] *)
Definition withLive (g : Game.t) (ids : list string) : Game.t :=
  Game.mk (Game.id g) (Game.seasonId g) (Game.hostIds g) (Game.type g)
    (Game.title g) (Game.date g) Live ids
    (Game.hasBonusRound g) (Game.categoryPoints g) (Game.categoryConfigs g)
    (Game.stickyPoints g) (Game.currentStage g) (Game.results g)
    (Game.manualAdjustments g) (Game.countInRoyalty g) (Game.feedback g).

(** [Array.from(new Set(ids))] on identifiers: first occurrences, in order. *)
Definition uniqueIds (ids : list string) : list string :=
  foldl (λ acc x, if decide (x ∈ acc) then acc else acc ++ [x]) [] ids.

(** [selectAll]: [new Set(gameTeams.map(t => t.id))].  By the time a handler
    runs, the [gameTeams] array has been sorted in place by [rankedTeams]
    ([Array.prototype.sort] returns the array it was called on). *)
Definition selectAll (teams : list Team.t) (st : LiveGame.t) : LiveGame.t :=
  LiveGame.mk (LiveGame.game st)
    (uniqueIds (Team.id <$> rankedTeams teams (LiveGame.game st)))
    (LiveGame.manualPoints st) (LiveGame.viewMode st).

Definition selectNone (st : LiveGame.t) : LiveGame.t :=
  LiveGame.mk (LiveGame.game st) [] (LiveGame.manualPoints st)
              (LiveGame.viewMode st).

(** [toggleRosterTeam], on the [rosterIds] set of the roster dialog. *)
Definition toggleRosterTeam (rosterIds : list string) (id : string) : list string :=
  if includes rosterIds id then filter (λ x, x ≠ id) rosterIds
  else rosterIds ++ [id].

Definition saveRoster (game : Game.t) (rosterIds : list string) : Game.t :=
  withParticipants game rosterIds.

(** [saveAdjustment]; [uuid] is [crypto.randomUUID()] and [timestamp] is
    [new Date().toISOString()].  A [null] or empty [adjustingTeamId] is
    falsy and makes the handler return at once. *)
Definition saveAdjustment (game : Game.t) (adjustingTeamId : option string)
    (adjustmentPoints : Z) (adjustmentReason uuid timestamp : string) : Game.t :=
  match adjustingTeamId with
  | None => game
  | Some teamId =>
      if decide (teamId = "") then game
      else
        let newAdjustment :=
          ManualAdjustment.mk uuid teamId adjustmentPoints
            (Stage.set (Game.currentStage game)) adjustmentReason timestamp in
        withAdjustments game (adjustmentsOf game ++ [newAdjustment])
  end.

(** The "Add Bonus Round" button of the game-over screen. *)
Definition addBonusRound (game : Game.t) : Game.t := withBonusRound game true.

(** The "Back to Scoring" button of the game-over screen. *)
Definition backToScoring (game : Game.t) : Game.t :=
  let prevSet := Stage.set (Game.currentStage game) - 1 in
  let prevCat := CATEGORIES_PER_SET - 1 in
  let prevQ := QUESTIONS_PER_CATEGORY - 1 in
  Game.withStage game (Stage.mk prevSet prevCat prevQ).

(** ** Set summary table ([LiveGame] component) *)

(** [Array.from({length: setJustFinished + 1}, (_, i) => i)] with
    [setJustFinished = set - 1]. *)
Definition setsToShow (game : Game.t) : list Z :=
  let setJustFinished := Stage.set (Game.currentStage game) - 1 in
  Z.of_nat <$> seq 0 (Z.to_nat (setJustFinished + 1)).

Definition setSummaryRow (game : Game.t) (team : Team.t) : SummaryRow.t :=
  let '(setScores, total) :=
    foldl (λ '(setScores, total) sId,
             let sScore := setScoreOf game (Team.id team) sId in
             (setScores ++ [sScore], total + sScore))
          ([], 0) (setsToShow game) in
  SummaryRow.mk team setScores total.

Definition setSummaryData (teams : list Team.t) (game : Game.t)
    : list SummaryRow.t :=
  setSummaryRow game <$> rankedTeams teams game.

(** ** Game list handlers ([App] component) *)

(** [handleStartGame]: the new [games] array, or [None] when the handler
    returns before [setGames]. *)
Definition handleStartGame (games : list Game.t) (gameId : string)
    : option (list Game.t) :=
  match list_find (λ g, Game.id g = gameId) games with
  | None => None
  | Some (_, game) =>
      let participating :=
        if decide (Game.status game = Upcoming) then []
        else Game.participatingTeamIds game in
      Some ((λ g, if decide (Game.id g = gameId)
                  then withLive g participating else g) <$> games)
  end.

(** [updateActiveGame] *)
Definition updateActiveGame (prevGames : list Game.t) (updatedGame : Game.t)
    : list Game.t :=
  (λ g, if decide (Game.id g = Game.id updatedGame) then updatedGame else g)
    <$> prevGames.

(** [games.find(g => g.id === activeGameId)] *)
Definition findGame (games : list Game.t) (gameId : string) : option Game.t :=
  snd <$> list_find (λ g, Game.id g = gameId) games.

(** [finalizeGame]; [confirmed] is the answer to the [confirm] dialog and
    [feedbackData] the feedback entered so far, keyed by team.  The teams are
    those of the [gameTeams] array, which [rankedTeams] has sorted in place. *)
Definition finalizeGame (confirmed : bool) (teams : list Team.t)
    (feedbackData : list (string * GameFeedback.t)) (game : Game.t) : Game.t :=
  if confirmed then
    let allFeedback :=
      (λ team,
         let entry := JsObj.get feedbackData (Team.id team) in
         GameFeedback.mk (Team.id team)
           (orElse (GameFeedback.rating <$> entry) 10)
           (entry ≫= GameFeedback.remarks)
           (entry ≫= GameFeedback.memorableCategoryKey))
        <$> rankedTeams teams game in
    withArchived game allFeedback
  else game.

(** ** Seasons ([types.ts], [App] component) *)

Module Season.
Record t := mk { id : string; name : string; isActive : bool }.
End Season.

(** [seasons.find(s => s.isActive) || seasons[0] || {id: 'fallback', ...}] *)
Definition currentSeason (seasons : list Season.t) : Season.t :=
  match list_find (λ s, Season.isActive s = true) seasons with
  | Some (_, s) => s
  | None =>
      match seasons with
      | s :: _ => s
      | [] => Season.mk "fallback" "Fallback Season" true
      end
  end.

(** [addSeason]; [uuid] is [crypto.randomUUID()].  An empty name is falsy
    and nothing is added. *)
Definition addSeason (seasons : list Season.t) (newSeason uuid : string)
    : list Season.t :=
  if decide (newSeason = "") then seasons
  else
    let updated := (λ s, Season.mk (Season.id s) (Season.name s) false) <$> seasons in
    updated ++ [Season.mk uuid newSeason true].

(** The "Set Active" button: [seasons.map(x => ({...x, isActive: x.id === s.id}))] *)
Definition activateSeason (seasons : list Season.t) (s : Season.t) : list Season.t :=
  (λ x, Season.mk (Season.id x) (Season.name x)
                  (bool_decide (Season.id x = Season.id s))) <$> seasons.

(** ** Notions used by the further properties *)

(** The stage lies on the grid: a non-negative set, a category below
    [CATEGORIES_PER_SET], a question below [QUESTIONS_PER_CATEGORY]. *)
Definition onGrid (stage : Stage.t) : Prop :=
  0 ≤ Stage.set stage
  ∧ 0 ≤ Stage.category stage < CATEGORIES_PER_SET
  ∧ 0 ≤ Stage.question stage < QUESTIONS_PER_CATEGORY.

(** No ledger entry and no pending selection lists a team twice. *)
Definition creditsOnce (st : LiveGame.t) : Prop :=
  NoDup (LiveGame.currentSelection st)
  ∧ Forall (λ r, NoDup (QuestionResult.correctTeamIds r))
           (Game.results (LiveGame.game st)).

(** The games of a season in which a team took part. *)
Definition gamesOf (seasonId : string) (games : list Game.t) (t : string)
    : list Game.t :=
  filter (λ g, isSeasonGame seasonId g = true
               ∧ t ∈ Game.participatingTeamIds g) games.

(** The rank a participating team reaches in a game. *)
Definition rankIn (game : Game.t) (t : string) : Z :=
  rankOf (calculateGameScores game) (gameTotal game t).

(** The bonus points that go with a rank. *)
Definition rankBonus (teamRank : Z) : Z :=
  if decide (teamRank = 1) then 10
  else if decide (teamRank = 2) then 5
  else if decide (teamRank = 3) then 3 else 0.

(** ** Facts about dictionaries *)

Module JsObjFacts.
Import JsObj.
Section facts.
Context {V : Type}.
Implicit Types (o : list (string * V)) (k : string) (v : V).

Lemma get_put_eq o k v : get (put o k v) k = Some v.
Proof.
  induction o as [|[k' v'] o IH]; simpl.
  - by rewrite decide_True.
  - destruct (decide (k' = k)) as [->|Hne]; simpl.
    + by rewrite decide_True.
    + by rewrite decide_False.
Qed.

Lemma get_put_ne o k k' v : k ≠ k' → get (put o k v) k' = get o k'.
Proof.
  intros Hne. induction o as [|[k0 v0] o IH]; simpl.
  - by rewrite decide_False.
  - destruct (decide (k0 = k)) as [->|Hne0]; simpl.
    + by rewrite !decide_False.
    + by rewrite IH.
Qed.

Lemma get_None o k : get o k = None ↔ k ∉ keys o.
Proof.
  unfold keys. induction o as [|[k0 v0] o IH]; simpl.
  - split; [intros _; apply not_elem_of_nil | done].
  - rewrite not_elem_of_cons. destruct (decide (k0 = k)) as [->|Hne].
    + split; [done | intros [? _]; done].
    + rewrite IH. split; [by intros ? | by intros [_ ?]].
Qed.

Lemma get_is_Some o k : is_Some (get o k) ↔ k ∈ keys o.
Proof.
  rewrite <-not_eq_None_Some, get_None.
  split; [apply dec_stable | by intros ? ?].
Qed.

Lemma keys_put o k v :
  keys (put o k v) = if decide (k ∈ keys o) then keys o else keys o ++ [k].
Proof.
  unfold keys. induction o as [|[k0 v0] o IH]; [done|].
  cbn [put]. rewrite fmap_cons. cbn [fst].
  destruct (decide (k0 = k)) as [->|Hne].
  - rewrite fmap_cons. cbn [fst]. rewrite decide_True; [done | left].
  - rewrite fmap_cons, IH. cbn [fst].
    destruct (decide (k ∈ o.*1)) as [Hin|Hin].
    + rewrite decide_True; [done | by right].
    + rewrite decide_False; [done|].
      intros [->|?]%elem_of_cons; done.
Qed.

Lemma keys_put_present o k v : k ∈ keys o → keys (put o k v) = keys o.
Proof. intros. by rewrite keys_put, decide_True. Qed.

Lemma elem_of_keys_put o k k' v :
  k' ∈ keys (put o k v) ↔ k' = k ∨ k' ∈ keys o.
Proof.
  rewrite keys_put. case_decide.
  - split; [by right | by intros [->|?]].
  - rewrite elem_of_app, list_elem_of_singleton. tauto.
Qed.

Lemma NoDup_keys_put o k v : NoDup (keys o) → NoDup (keys (put o k v)).
Proof.
  intros Hnd. rewrite keys_put. case_decide; [done|].
  apply NoDup_app. split_and!; [done | | apply NoDup_singleton].
  intros x Hx ->%list_elem_of_singleton. done.
Qed.

Lemma get_Some_elem_of o k v : get o k = Some v → (k, v) ∈ o.
Proof.
  induction o as [|[k0 v0] o IH]; simpl; [done|].
  destruct (decide (k0 = k)) as [->|Hne].
  - intros [= ->]. left.
  - intros. right. auto.
Qed.

Lemma elem_of_get_Some o k v : NoDup (keys o) → (k, v) ∈ o → get o k = Some v.
Proof.
  unfold keys. induction o as [|[k0 v0] o IH]; simpl.
  - intros _ Hin. by apply elem_of_nil in Hin.
  - intros [Hnin Hnd]%NoDup_cons [Heq|Hin]%elem_of_cons.
    + injection Heq as -> ->. by rewrite decide_True.
    + rewrite decide_False; [by apply IH|].
      intros ->. apply Hnin. apply list_elem_of_fmap. by exists (k, v).
Qed.
End facts.
End JsObjFacts.

(** ** Facts about sorting and de-duplication *)

Section sort_facts.
Context {A : Type} (cmp : A → A → Z).

Lemma sortInsert_Permutation x l : sortInsert cmp x l ≡ₚ x :: l.
Proof.
  induction l as [|y l IH]; simpl; [done|].
  destruct (0 <? cmp x y); [|done].
  rewrite IH. apply Permutation_swap.
Qed.

Lemma sort_Permutation l : sort cmp l ≡ₚ l.
Proof.
  induction l as [|x l IH]; simpl; [done|].
  rewrite sortInsert_Permutation. by f_equiv.
Qed.

Lemma elem_of_sort x l : x ∈ sort cmp l ↔ x ∈ l.
Proof. by rewrite sort_Permutation. Qed.

Lemma length_sort l : length (sort cmp l) = length l.
Proof. by rewrite sort_Permutation. Qed.
End sort_facts.

(** Sorting numbers with [(a, b) => b - a] yields a descending list. *)
Lemma sortInsert_descending x l :
  Sorted (λ a b, b ≤ a) l → Sorted (λ a b, b ≤ a) (sortInsert (λ a b, b - a) x l).
Proof.
  induction 1 as [|y l Hs IH Hhd]; simpl.
  - repeat constructor.
  - destruct (0 <? y - x) eqn:Hlt.
    + apply Z.ltb_lt in Hlt. constructor; [done|].
      destruct Hhd as [|z l Hz]; simpl.
      * constructor. lia.
      * destruct (0 <? z - x); constructor; lia.
    + apply Z.ltb_ge in Hlt. repeat constructor; [done.. | lia].
Qed.

Lemma sort_descending l : Sorted (λ a b, b ≤ a) (sort (λ a b, b - a) l).
Proof.
  induction l as [|x l IH]; simpl; [constructor|].
  by apply sortInsert_descending.
Qed.

Lemma uniqueValues_spec xs :
  NoDup (uniqueValues xs) ∧ ∀ x, x ∈ uniqueValues xs ↔ x ∈ xs.
Proof.
  unfold uniqueValues.
  enough (∀ acc, NoDup acc →
            let r := foldl (λ acc x, if decide (x ∈ acc) then acc else acc ++ [x])
                           acc xs in
            NoDup r ∧ ∀ x, x ∈ r ↔ x ∈ acc ∨ x ∈ xs) as Hgen.
  { destruct (Hgen [] (NoDup_nil_2)) as [Hnd Hin]. split; [done|].
    intros x. rewrite Hin. split; [intros [[]%elem_of_nil|]; done | by right]. }
  induction xs as [|y xs IH]; intros acc Hnd; simpl.
  - split; [done|]. intros x. split; [by left | intros [|[]%elem_of_nil]; done].
  - destruct (decide (y ∈ acc)) as [Hin|Hin].
    + destruct (IH acc Hnd) as [Hnd' Hin']. split; [done|].
      intros x. rewrite Hin', elem_of_cons.
      split; [tauto | intros [?|[->|?]]; tauto].
    + assert (NoDup (acc ++ [y])) as Hnd2.
      { apply NoDup_app. split_and!; [done | | apply NoDup_singleton].
        by intros x Hx ->%list_elem_of_singleton. }
      destruct (IH _ Hnd2) as [Hnd' Hin']. split; [done|].
      intros x. rewrite Hin', elem_of_app, list_elem_of_singleton, elem_of_cons.
      tauto.
Qed.

Lemma indexOf_cons y l x :
  indexOf (y :: l) x =
    if decide (y = x) then 0
    else if decide (indexOf l x = -1) then -1 else indexOf l x + 1.
Proof.
  unfold indexOf. cbn [list_find].
  destruct (decide (y = x)); [done|].
  destruct (list_find _ l) as [[i z]|]; simpl; [|done].
  rewrite decide_False by lia. lia.
Qed.

Lemma filter_none {A} (P : A → Prop) `{!∀ x, Decision (P x)} (l : list A) :
  (∀ x, x ∈ l → ¬ P x) → filter P l = [].
Proof.
  induction l as [|y l IH]; intros Hall; [done|].
  rewrite filter_cons_False by (apply Hall; left).
  apply IH. intros x Hx. apply Hall. by right.
Qed.

(** In a strictly descending list the position of an element is the number of
    elements above it. *)
Lemma indexOf_descending l x :
  Sorted (λ a b, b ≤ a) l → NoDup l → x ∈ l →
  indexOf l x = Z.of_nat (length (filter (λ v, x < v) l)).
Proof.
  intros Hs%Sorted_StronglySorted; [|intros a b c; lia].
  induction Hs as [|y l Hs IH Hall]; intros Hnd Hin.
  - by apply elem_of_nil in Hin.
  - apply NoDup_cons in Hnd as [Hy Hnd]. rewrite indexOf_cons.
    rewrite filter_cons. destruct (decide (y = x)) as [->|Hne].
    + rewrite decide_False by lia.
      replace (filter (λ v, x < v) l) with (@nil Z); [done|].
      symmetry. apply filter_none. rewrite Forall_forall in Hall.
      intros z Hz. specialize (Hall z Hz). lia.
    + apply elem_of_cons in Hin as [->|Hin]; [done|].
      rewrite Forall_forall in Hall.
      assert (x ≤ y) as Hle by exact (Hall x Hin).
      rewrite (decide_True (P:=x < y)) by lia. rewrite IH by done.
      rewrite decide_False by lia. simpl. lia.
Qed.

Lemma uniqueScores_above scores score :
  length (filter (λ v, score < v) (uniqueScores scores)) = distinctAbove scores score.
Proof.
  unfold uniqueScores, distinctAbove.
  destruct (uniqueValues_spec (JsObj.values scores)) as [Hnd Hin].
  rewrite sort_Permutation.
  rewrite <-(size_list_to_set (C:=gset Z)) by by apply NoDup_filter.
  f_equal. apply set_eq. intros v.
  rewrite elem_of_list_to_set, list_elem_of_filter, elem_of_filter,
    elem_of_list_to_set, Hin. done.
Qed.

(** The rank of a score that occurs in the mapping. *)
Lemma rankOf_present scores score :
  score ∈ JsObj.values scores →
  rankOf scores score = 1 + Z.of_nat (distinctAbove scores score).
Proof.
  intros Hin. unfold rankOf.
  destruct (uniqueValues_spec (JsObj.values scores)) as [Hnd Huniq].
  rewrite indexOf_descending.
  - rewrite uniqueScores_above. lia.
  - apply sort_descending.
  - unfold uniqueScores. by rewrite sort_Permutation.
  - unfold uniqueScores. by rewrite elem_of_sort, Huniq.
Qed.

Lemma get_Some_values (scores : list (string * Z)) t sc :
  JsObj.get scores t = Some sc → sc ∈ JsObj.values scores.
Proof.
  intros Hget%JsObjFacts.get_Some_elem_of.
  unfold JsObj.values. apply list_elem_of_fmap. by exists (t, sc).
Qed.

(** ** Facts about score aggregation *)

Lemma get_addIfPresent scores k p t :
  JsObj.get (addIfPresent scores k p) t =
    (λ v, v + if decide (k = t) then p else 0) <$> JsObj.get scores t.
Proof.
  unfold addIfPresent. destruct (JsObj.get scores k) as [v|] eqn:Hk.
  - destruct (decide (k = t)) as [->|Hne].
    + rewrite JsObjFacts.get_put_eq, Hk. done.
    + rewrite JsObjFacts.get_put_ne by done.
      destruct (JsObj.get scores t); simpl; f_equal; lia.
  - destruct (decide (k = t)) as [->|Hne].
    + by rewrite Hk.
    + destruct (JsObj.get scores t); simpl; f_equal; lia.
Qed.

Lemma keys_addIfPresent scores k p :
  JsObj.keys (addIfPresent scores k p) = JsObj.keys scores.
Proof.
  unfold addIfPresent. destruct (JsObj.get scores k) as [v|] eqn:Hk; [|done].
  apply JsObjFacts.keys_put_present, JsObjFacts.get_is_Some. by exists v.
Qed.

Lemma fmap_add_add (o : option Z) a b :
  (λ v, v + b) <$> ((λ v, v + a) <$> o) = (λ v, v + (a + b)) <$> o.
Proof. destruct o; simpl; f_equal; lia. Qed.

Lemma fmap_add_0 (o : option Z) : (λ v, v + 0) <$> o = o.
Proof. destruct o; simpl; f_equal; lia. Qed.

Section credit_folds.
Context {A : Type} (who : A → string) (worth : A → Z).

(** Crediting a list of items adds, for each team, the worth of its items. *)
Lemma get_foldl_addIfPresent l scores t :
  JsObj.get (foldl (λ scores a, addIfPresent scores (who a) (worth a)) scores l) t
  = (λ v, v + sumOver (λ a, if decide (who a = t) then worth a else 0) l)
      <$> JsObj.get scores t.
Proof.
  revert scores. induction l as [|a l IH]; intros scores; simpl.
  - by rewrite fmap_add_0.
  - by rewrite IH, get_addIfPresent, fmap_add_add.
Qed.

Lemma keys_foldl_addIfPresent l scores :
  JsObj.keys (foldl (λ scores a, addIfPresent scores (who a) (worth a)) scores l)
  = JsObj.keys scores.
Proof.
  revert scores. induction l as [|a l IH]; intros scores; simpl; [done|].
  by rewrite IH, keys_addIfPresent.
Qed.
End credit_folds.

Lemma get_foldl_results rs scores t :
  JsObj.get
    (foldl (λ scores res,
              foldl (λ scores teamId,
                       addIfPresent scores teamId (QuestionResult.points res))
                    scores (QuestionResult.correctTeamIds res))
           scores rs) t
  = (λ v, v + sumOver (entryWorth t) rs) <$> JsObj.get scores t.
Proof.
  revert scores. induction rs as [|r rs IH]; intros scores; simpl.
  - by rewrite fmap_add_0.
  - rewrite IH.
    rewrite (get_foldl_addIfPresent (λ k, k) (λ _, QuestionResult.points r)).
    by rewrite fmap_add_add.
Qed.

Lemma keys_foldl_results rs scores :
  JsObj.keys
    (foldl (λ scores res,
              foldl (λ scores teamId,
                       addIfPresent scores teamId (QuestionResult.points res))
                    scores (QuestionResult.correctTeamIds res))
           scores rs)
  = JsObj.keys scores.
Proof.
  revert scores. induction rs as [|r rs IH]; intros scores; simpl; [done|].
  rewrite IH.
  apply (keys_foldl_addIfPresent (λ k, k) (λ _, QuestionResult.points r)).
Qed.

Lemma get_foldl_init ids (scores : list (string * Z)) t :
  JsObj.get (foldl (λ scores tId, JsObj.put scores tId 0) scores ids) t
  = if decide (t ∈ ids) then Some 0 else JsObj.get scores t.
Proof.
  revert scores. induction ids as [|i ids IH]; intros scores; cbn [foldl].
  - rewrite decide_False; [done | apply not_elem_of_nil].
  - rewrite IH. destruct (decide (t ∈ ids)) as [Hin|Hin].
    + rewrite decide_True; [done | by right].
    + destruct (decide (i = t)) as [->|Hne].
      * rewrite JsObjFacts.get_put_eq. rewrite decide_True; [done | left].
      * rewrite JsObjFacts.get_put_ne by done.
        rewrite decide_False; [done|]. by intros [->|?]%elem_of_cons.
Qed.

Lemma NoDup_keys_foldl_init ids (scores : list (string * Z)) :
  NoDup (JsObj.keys scores) →
  NoDup (JsObj.keys (foldl (λ scores tId, JsObj.put scores tId 0) scores ids)).
Proof.
  revert scores. induction ids as [|i ids IH]; intros scores Hnd; simpl; [done|].
  by apply IH, JsObjFacts.NoDup_keys_put.
Qed.

Lemma calculateGameScores_get game t :
  JsObj.get (calculateGameScores game) t =
    if decide (t ∈ Game.participatingTeamIds game)
    then Some (gameTotal game t) else None.
Proof.
  unfold calculateGameScores, gameTotal, adjustmentsOf.
  destruct (Game.manualAdjustments game) as [adjs|]; simpl.
  - rewrite (get_foldl_addIfPresent ManualAdjustment.teamId ManualAdjustment.points).
    rewrite get_foldl_results, get_foldl_init, fmap_add_add.
    case_decide; simpl; [f_equal; lia | done].
  - rewrite get_foldl_results, get_foldl_init.
    case_decide; simpl; [f_equal; lia | done].
Qed.

Lemma calculateGameScores_NoDup game :
  NoDup (JsObj.keys (calculateGameScores game)).
Proof.
  unfold calculateGameScores.
  destruct (Game.manualAdjustments game) as [adjs|].
  - rewrite (keys_foldl_addIfPresent ManualAdjustment.teamId ManualAdjustment.points).
    rewrite keys_foldl_results. apply NoDup_keys_foldl_init, NoDup_nil_2.
  - rewrite keys_foldl_results. apply NoDup_keys_foldl_init, NoDup_nil_2.
Qed.

Lemma calculateGameScores_keys game t :
  t ∈ JsObj.keys (calculateGameScores game) ↔ t ∈ Game.participatingTeamIds game.
Proof.
  rewrite <-JsObjFacts.get_is_Some, calculateGameScores_get.
  case_decide; split; done.
Qed.

(** ** The stage counter *)

Lemma syncSelection_game game viewMode :
  LiveGame.game (syncSelection game viewMode) = game.
Proof. unfold syncSelection. by destruct (list_find _ _) as [[? ?]|]. Qed.

Lemma syncSelection_viewMode game viewMode :
  LiveGame.viewMode (syncSelection game viewMode) = viewMode.
Proof. unfold syncSelection. by destruct (list_find _ _) as [[? ?]|]. Qed.

Lemma handleNext_game st :
  LiveGame.game (handleNext st) =
    Game.withRecorded (LiveGame.game st)
      (recordResult (Game.results (LiveGame.game st))
                    (Game.currentStage (LiveGame.game st)) (currentResult st))
      (currentPoints st) (nextStage (Game.currentStage (LiveGame.game st))).
Proof. unfold handleNext. apply syncSelection_game. Qed.

(** C6. [handleNext] increments the question; a question index reaching
    [QUESTIONS_PER_CATEGORY] restarts at 0 and carries into the category; a
    category index reaching [CATEGORIES_PER_SET] restarts at 0 and carries into
    the set.  The set-boundary signal is raised exactly when the new set index
    exceeds the old one, and it is what switches the view to the set summary.
    From stage (0,2,7) the next stage is (1,0,0), with the signal raised. *)
Theorem handleNext_advances_stage :
  (∀ st : LiveGame.t,
     let stage := Game.currentStage (LiveGame.game st) in
     let stage' := Game.currentStage (LiveGame.game (handleNext st)) in
     stage' =
       (if decide (Stage.question stage + 1 < QUESTIONS_PER_CATEGORY)
        then Stage.mk (Stage.set stage) (Stage.category stage)
                      (Stage.question stage + 1)
        else if decide (Stage.category stage + 1 < CATEGORIES_PER_SET)
        then Stage.mk (Stage.set stage) (Stage.category stage + 1) 0
        else Stage.mk (Stage.set stage + 1) 0 0)
     ∧ (isEndOfSet stage = true ↔ Stage.set stage < Stage.set stage')
     ∧ LiveGame.viewMode (handleNext st) =
         (if isEndOfSet stage then SetSummary else LiveGame.viewMode st))
  ∧ (let st := handleNext (scorerAt (sampleGame Regular Live None false
                                       (Stage.mk 0 2 7) ["A"] [])) in
     Game.currentStage (LiveGame.game st) = Stage.mk 1 0 0
     ∧ isEndOfSet (Stage.mk 0 2 7) = true
     ∧ LiveGame.viewMode st = SetSummary).
Proof.
  split; [|by vm_compute].
  intros st stage stage'. subst stage'. rewrite handleNext_game.
  cbn [Game.currentStage Game.withRecorded]. fold stage. split_and!.
  - unfold nextStage.
    destruct (Z.leb_spec QUESTIONS_PER_CATEGORY (Stage.question stage + 1)),
      (Z.leb_spec CATEGORIES_PER_SET (Stage.category stage + 1));
      repeat case_decide; done || lia.
  - unfold isEndOfSet. apply Z.ltb_lt.
  - unfold handleNext. apply syncSelection_viewMode.
Qed.

(** C7. The game is over exactly when the set index has reached
    [SETS_PER_GAME] without a bonus round, or has passed it with one: without
    a bonus round stage (4,0,0) is game-over; with one, (4,0,0) is not but
    (5,0,0) is. *)
Theorem isGameOver_boundary :
  (∀ game : Game.t,
     isGameOver game = true ↔
       (Game.hasBonusRound game = false
        ∧ SETS_PER_GAME ≤ Stage.set (Game.currentStage game))
       ∨ (Game.hasBonusRound game = true
          ∧ SETS_PER_GAME < Stage.set (Game.currentStage game)))
  ∧ isGameOver (sampleGame Regular Live None false (Stage.mk 4 0 0) ["A"] []) = true
  ∧ isGameOver (sampleGame Regular Live None true (Stage.mk 4 0 0) ["A"] []) = false
  ∧ isGameOver (sampleGame Regular Live None true (Stage.mk 5 0 0) ["A"] []) = true.
Proof.
  split; [|by vm_compute].
  intros game. unfold isGameOver.
  destruct (Game.hasBonusRound game); simpl.
  - rewrite Z.ltb_lt. split; [by right | by intros [[? _]|[_ ?]]].
  - rewrite orb_false_r, Z.leb_le. split; [by left | by intros [[_ ?]|[? _]]].
Qed.

Lemma previousStage_cases stage :
  previousStage stage =
    if decide (0 ≤ Stage.question stage - 1)
    then Stage.mk (Stage.set stage) (Stage.category stage)
                  (Stage.question stage - 1)
    else if decide (0 ≤ Stage.category stage - 1)
    then Stage.mk (Stage.set stage) (Stage.category stage - 1)
                  (QUESTIONS_PER_CATEGORY - 1)
    else Stage.mk (Stage.set stage - 1) (CATEGORIES_PER_SET - 1)
                  (QUESTIONS_PER_CATEGORY - 1).
Proof.
  unfold previousStage.
  destruct (Z.ltb_spec (Stage.question stage - 1) 0),
    (Z.ltb_spec (Stage.category stage - 1) 0);
    repeat case_decide; done || lia.
Qed.

(** C9. [handlePrevious] decrements the question, borrowing from the category
    (question 7) and from the set (category 2) on underflow, and the game it
    hands on carries that stage and is otherwise unchanged: from (1,0,0) the
    stage becomes (0,2,7), from (0,1,0) it becomes (0,0,7), from (2,1,4) it
    becomes (2,1,3).  When the set would become negative, which for a stage
    with non-negative coordinates means retreating from (0,0,0), the handler
    returns without updating anything: the game, its stage included, is
    unchanged (and so it is for a stage whose set is negative already). *)
Theorem handlePrevious_retreats_stage :
  (∀ stage : Stage.t,
     previousStage stage =
       if decide (0 ≤ Stage.question stage - 1)
       then Stage.mk (Stage.set stage) (Stage.category stage)
                     (Stage.question stage - 1)
       else if decide (0 ≤ Stage.category stage - 1)
       then Stage.mk (Stage.set stage) (Stage.category stage - 1) 7
       else Stage.mk (Stage.set stage - 1) 2 7)
  ∧ (∀ st : LiveGame.t,
       0 ≤ Stage.set (previousStage (Game.currentStage (LiveGame.game st))) →
       LiveGame.game (handlePrevious st) =
         Game.withStage (LiveGame.game st)
           (previousStage (Game.currentStage (LiveGame.game st))))
  ∧ (∀ st : LiveGame.t,
       Stage.set (previousStage (Game.currentStage (LiveGame.game st))) < 0 →
       handlePrevious st = st)
  ∧ (∀ stage : Stage.t,
       0 ≤ Stage.set stage → 0 ≤ Stage.category stage → 0 ≤ Stage.question stage →
       (Stage.set (previousStage stage) < 0 ↔ stage = Stage.mk 0 0 0))
  ∧ (∀ st : LiveGame.t,
       Game.currentStage (LiveGame.game st) = Stage.mk 0 0 0 →
       handlePrevious st = st)
  ∧ (∀ st : LiveGame.t,
       let stage := Game.currentStage (LiveGame.game st) in
       let game' := LiveGame.game (handlePrevious st) in
       Game.currentStage game' =
         (if decide (Stage.set stage < 0) then stage
          else if decide (0 ≤ Stage.question stage - 1)
          then Stage.mk (Stage.set stage) (Stage.category stage)
                        (Stage.question stage - 1)
          else if decide (0 ≤ Stage.category stage - 1)
          then Stage.mk (Stage.set stage) (Stage.category stage - 1) 7
          else if decide (0 ≤ Stage.set stage - 1)
          then Stage.mk (Stage.set stage - 1) 2 7
          else stage)
       ∧ Game.results game' = Game.results (LiveGame.game st)
       ∧ Game.stickyPoints game' = Game.stickyPoints (LiveGame.game st)
       ∧ Game.participatingTeamIds game' =
           Game.participatingTeamIds (LiveGame.game st)
       ∧ Game.manualAdjustments game' = Game.manualAdjustments (LiveGame.game st)
       ∧ Game.hasBonusRound game' = Game.hasBonusRound (LiveGame.game st)
       ∧ Game.status game' = Game.status (LiveGame.game st)
       ∧ LiveGame.viewMode (handlePrevious st) = LiveGame.viewMode st)
  ∧ (let stageAfter stage :=
       Game.currentStage
         (LiveGame.game
            (handlePrevious
               (scorerAt (sampleGame Regular Live None false stage ["A"] [])))) in
     stageAfter (Stage.mk 1 0 0) = Stage.mk 0 2 7
     ∧ stageAfter (Stage.mk 0 1 0) = Stage.mk 0 0 7
     ∧ stageAfter (Stage.mk 2 1 4) = Stage.mk 2 1 3
     ∧ stageAfter (Stage.mk 4 0 0) = Stage.mk 3 2 7
     ∧ stageAfter (Stage.mk 0 0 0) = Stage.mk 0 0 0).
Proof.
  split_and!.
  - apply previousStage_cases.
  - intros st Hset. unfold handlePrevious.
    destruct (Z.ltb_spec
                (Stage.set (previousStage (Game.currentStage (LiveGame.game st)))) 0);
      [lia | apply syncSelection_game].
  - intros st Hset. unfold handlePrevious.
    by apply Z.ltb_lt in Hset as ->.
  - intros [s c q] Hs Hc Hq. simpl in *. rewrite previousStage_cases. simpl.
    split.
    + repeat case_decide; simpl; intros Hneg; [lia | lia | f_equal; lia].
    + by intros [= -> -> ->].
  - intros st Hstage. unfold handlePrevious. by rewrite Hstage.
  - intros st stage game'. subst game'. unfold handlePrevious. fold stage.
    destruct (Z.ltb_spec (Stage.set (previousStage stage)) 0) as [Hneg|Hpos].
    + split_and!; try done.
      rewrite previousStage_cases in Hneg.
      repeat case_decide; simpl in Hneg; try done; lia.
    + rewrite syncSelection_game, syncSelection_viewMode.
      split_and!; try done.
      cbn [Game.currentStage Game.withStage].
      rewrite previousStage_cases in *.
      repeat case_decide; simpl in Hpos; try done; lia.
  - by vm_compute.
Qed.

Lemma handlePrevious_at_start :
  (let st := scorerAt (sampleGame Regular Live None false (Stage.mk 0 0 0) ["A"] []) in
   Game.currentStage (LiveGame.game st) = Stage.mk 0 0 0 ∧ handlePrevious st = st)
  ∧ (let st := scorerAt (sampleGame Regular Live None false (Stage.mk 1 0 0) ["A"] []) in
     0 ≤ Stage.set (previousStage (Game.currentStage (LiveGame.game st)))
     ∧ Game.currentStage (LiveGame.game (handlePrevious st)) = Stage.mk 0 2 7).
Proof.
  destruct handlePrevious_retreats_stage as (_ & Hmove & _ & _ & Hstart & _).
  split.
  - split; [reflexivity|]. apply Hstart. reflexivity.
  - split; [by vm_compute|]. rewrite Hmove by (by vm_compute). reflexivity.
Defined.

(** ** Season eligibility *)

(** C8. A game enters the season standings exactly when its season matches,
    it is archived, and its [countInRoyalty] flag says so; a legacy record
    without the flag counts exactly when it is a Regular game. *)
Theorem isSeasonGame_eligibility :
  (∀ (seasonId : string) (g : Game.t),
     isSeasonGame seasonId g = true ↔
       Game.seasonId g = seasonId
       ∧ Game.status g = Archived
       ∧ match Game.countInRoyalty g with
         | Some flag => flag = true
         | None => Game.type g = Regular
         end)
  ∧ (∀ (seasonId : string) (games : list Game.t) (g : Game.t),
       g ∈ filter (λ g, isSeasonGame seasonId g = true) games ↔
         g ∈ games ∧ isSeasonGame seasonId g = true)
  ∧ isSeasonGame "s1" (sampleGame Regular Archived None false (Stage.mk 4 0 0) ["A"] [])
    = true
  ∧ isSeasonGame "s1" (sampleGame Special Archived None false (Stage.mk 4 0 0) ["A"] [])
    = false.
Proof.
  split_and!; [| |by vm_compute..].
  - intros seasonId g. unfold isSeasonGame.
    rewrite !andb_true_iff, !bool_decide_eq_true.
    destruct (Game.countInRoyalty g) as [flag|].
    + tauto.
    + rewrite bool_decide_eq_true. tauto.
  - intros seasonId games g. rewrite list_elem_of_filter. tauto.
Qed.

(** ** Point resolution *)

(** C5, refuted as stated: a question recorded with 0 points leaves
    [stickyPoints] at 0, and the next question then defaults to 1, not to the
    sticky value. *)
Lemma currentPoints_ignores_zero_sticky :
  let st0 := setManualPoints
               (scorerAt (sampleGame Regular Live None false (Stage.mk 0 0 0) ["A"] []))
               0 in
  let st1 := handleNext st0 in
  currentPoints st0 = 0
  ∧ Game.stickyPoints (LiveGame.game st1) = Some 0
  ∧ LiveGame.manualPoints st1 = None
  ∧ specCurrentPoints st1 = 0
  ∧ currentPoints st1 = 1.
Proof. by vm_compute. Qed.

(** C5, amended.  The point value of the current question is the explicit
    value if there is one; otherwise the game's [stickyPoints] if it exists
    and is not 0; otherwise 1.  [handleNext] always stores the value just used
    in [stickyPoints], so the default of the next question is that value, or 1
    when that value is 0. *)
Theorem currentPoints_resolution :
  (∀ st : LiveGame.t,
     currentPoints st =
       match LiveGame.manualPoints st with
       | Some p => p
       | None =>
           match Game.stickyPoints (LiveGame.game st) with
           | Some s => if decide (s = 0) then 1 else s
           | None => 1
           end
       end)
  ∧ (∀ st : LiveGame.t,
       Game.stickyPoints (LiveGame.game (handleNext st)) = Some (currentPoints st))
  ∧ (∀ st : LiveGame.t,
       LiveGame.manualPoints (handleNext st) = None →
       currentPoints (handleNext st) =
         if decide (currentPoints st = 0) then 1 else currentPoints st).
Proof.
  split_and!.
  - intros st. unfold currentPoints, orElse.
    by destruct (LiveGame.manualPoints st), (Game.stickyPoints (LiveGame.game st)).
  - intros st. by rewrite handleNext_game.
  - intros st Hnone. unfold currentPoints at 1. rewrite Hnone.
    by rewrite handleNext_game.
Qed.

Lemma currentPoints_resolution_sample :
  let st := setManualPoints
              (scorerAt (sampleGame Regular Live None false (Stage.mk 0 0 0) ["A"] []))
              3 in
  LiveGame.manualPoints (handleNext st) = None
  ∧ currentPoints (handleNext st) = 3.
Proof.
  split; [reflexivity|].
  apply (proj2 (proj2 currentPoints_resolution)). reflexivity.
Defined.

(** ** The result ledger *)

Lemma atStage_key stage r : atStage stage r ↔ QuestionResult.key r = stageKey stage.
Proof.
  unfold atStage, QuestionResult.key, stageKey. split.
  - by intros (-> & -> & ->).
  - by intros [= -> -> ->].
Qed.

Lemma currentResult_key st :
  QuestionResult.key (currentResult st) =
    stageKey (Game.currentStage (LiveGame.game st)).
Proof. done. Qed.

Lemma recordResult_found results stage result i r :
  NoDup (QuestionResult.key <$> results) →
  results !! i = Some r → atStage stage r →
  recordResult results stage result = <[i := result]> results.
Proof.
  intros Hnd Hi Hr. unfold recordResult.
  destruct (list_find (atStage stage) results) as [[j y]|] eqn:Hfind.
  - apply list_find_Some in Hfind as (Hj & Hy & _).
    enough (j = i) as -> by done.
    eapply NoDup_lookup; [exact Hnd | |].
    + by rewrite list_lookup_fmap, Hj.
    + rewrite list_lookup_fmap, Hi. simpl. f_equal.
      apply atStage_key in Hr, Hy. congruence.
  - apply list_find_None in Hfind. rewrite Forall_forall in Hfind.
    exfalso. eapply Hfind; [|done]. by eapply list_elem_of_lookup_2.
Qed.

Lemma recordResult_fresh results stage result :
  (∀ r, r ∈ results → ¬ atStage stage r) →
  recordResult results stage result = results ++ [result].
Proof.
  intros Hnone. unfold recordResult.
  destruct (list_find (atStage stage) results) as [[j y]|] eqn:Hfind; [|done].
  apply list_find_Some in Hfind as (Hj & Hy & _).
  exfalso. eapply Hnone; [|done]. by eapply list_elem_of_lookup_2.
Qed.

(** Recording under the key of the stage keeps the keys distinct. *)
Lemma recordResult_NoDup results stage result :
  QuestionResult.key result = stageKey stage →
  NoDup (QuestionResult.key <$> results) →
  NoDup (QuestionResult.key <$> recordResult results stage result).
Proof.
  intros Hkey Hnd. unfold recordResult.
  destruct (list_find (atStage stage) results) as [[j y]|] eqn:Hfind.
  - apply list_find_Some in Hfind as (Hj & Hy & _).
    rewrite list_fmap_insert, list_insert_id; [done|].
    rewrite list_lookup_fmap, Hj. simpl. f_equal.
    apply atStage_key in Hy. congruence.
  - apply list_find_None in Hfind. rewrite Forall_forall in Hfind.
    rewrite fmap_app. apply NoDup_app. split_and!; [done | | apply NoDup_singleton].
    intros k Hk ->%list_elem_of_singleton.
    apply list_elem_of_fmap in Hk as (r & Hr & Hin).
    apply (Hfind r Hin). apply atStage_key. congruence.
Qed.

Lemma act_ledger_NoDup st a :
  NoDup (ledgerKeys (LiveGame.game st)) →
  NoDup (ledgerKeys (LiveGame.game (act st a))).
Proof.
  intros Hnd. destruct a as [teamId|p| |]; simpl; try done.
  - rewrite handleNext_game. unfold ledgerKeys. cbn [Game.results Game.withRecorded].
    apply recordResult_NoDup; [apply currentResult_key | done].
  - unfold handlePrevious. destruct (_ <? 0); [done|].
    by rewrite syncSelection_game.
Qed.

(** C4. Whatever the operator does on the scorer screen, a ledger whose keys
    are distinct (the empty ledger of a new game, in particular) keeps
    distinct keys: at most one entry per (set, category, question).  When the
    current coordinate has an entry, [handleNext] puts the new entry, with the
    current selection and points, at the position of the old one; otherwise it
    appends the new entry, so the other entries keep their order. *)
Theorem ledger_unique_keys :
  (∀ (st : LiveGame.t) (actions : list Action),
     NoDup (ledgerKeys (LiveGame.game st)) →
     NoDup (ledgerKeys (LiveGame.game (run st actions))))
  ∧ (∀ (st : LiveGame.t) (i : nat) (r : QuestionResult.t),
       NoDup (ledgerKeys (LiveGame.game st)) →
       Game.results (LiveGame.game st) !! i = Some r →
       atStage (Game.currentStage (LiveGame.game st)) r →
       Game.results (LiveGame.game (handleNext st)) =
         <[i := currentResult st]> (Game.results (LiveGame.game st)))
  ∧ (∀ st : LiveGame.t,
       (∀ r, r ∈ Game.results (LiveGame.game st) →
             ¬ atStage (Game.currentStage (LiveGame.game st)) r) →
       Game.results (LiveGame.game (handleNext st)) =
         Game.results (LiveGame.game st) ++ [currentResult st])
  ∧ (∀ st : LiveGame.t,
       QuestionResult.key (currentResult st) =
         stageKey (Game.currentStage (LiveGame.game st))
       ∧ QuestionResult.correctTeamIds (currentResult st) =
           LiveGame.currentSelection st
       ∧ QuestionResult.points (currentResult st) = currentPoints st).
Proof.
  split_and!.
  - intros st actions. unfold run. revert st.
    induction actions as [|a actions IH]; intros st Hnd; simpl; [done|].
    by apply IH, act_ledger_NoDup.
  - intros st i r Hnd Hi Hr. rewrite handleNext_game. simpl.
    by eapply recordResult_found.
  - intros st Hnone. rewrite handleNext_game. simpl.
    by apply recordResult_fresh.
  - done.
Qed.

(** Recording (0,0,0) for team A, stepping back, and recording it again for
    teams A and B at 5 points leaves one entry, the later one. *)
Lemma ledger_unique_keys_rerecord :
  let start := scorerAt (sampleGame Regular Live None false (Stage.mk 0 0 0)
                                    ["A"; "B"] []) in
  let actions := [ToggleTeam "A"; Next; Previous;
                  ToggleTeam "B"; SetManualPoints 5; Next] in
  NoDup (ledgerKeys (LiveGame.game start))
  ∧ NoDup (ledgerKeys (LiveGame.game (run start actions)))
  ∧ Game.results (LiveGame.game (run start actions)) =
      [QuestionResult.mk 0 0 0 ["A"; "B"] 5].
Proof.
  split; [apply NoDup_nil_2|]. split; [|reflexivity].
  apply (proj1 ledger_unique_keys). apply NoDup_nil_2.
Defined.

(** ** Dense ranking *)

Lemma orElse_0 (o : option Z) v : o = Some v → orElse o 0 = v.
Proof. intros ->. unfold orElse. by case_decide. Qed.

Lemma historyEntry_participant teamId hosts game :
  teamId ∈ Game.participatingTeamIds game →
  let h := historyEntry teamId hosts game in
  HistoryEntry.game h = game
  ∧ JsObj.get (calculateGameScores game) teamId = Some (HistoryEntry.score h)
  ∧ HistoryEntry.rank h =
      1 + Z.of_nat (distinctAbove (calculateGameScores game) (HistoryEntry.score h)).
Proof.
  intros Hin. simpl.
  pose proof (calculateGameScores_get game teamId) as Hget.
  rewrite decide_True in Hget by done.
  rewrite (orElse_0 _ _ Hget). split_and!; [done..|].
  apply rankOf_present. by eapply get_Some_values.
Qed.

Lemma getTeamHistory_entries getTime teamId games hosts h :
  h ∈ getTeamHistory getTime teamId games hosts →
  ∃ game, game ∈ games ∧ Game.status game = Archived
          ∧ teamId ∈ Game.participatingTeamIds game
          ∧ h = historyEntry teamId hosts game.
Proof.
  unfold getTeamHistory. rewrite elem_of_sort, list_elem_of_fmap.
  intros (game & -> & Hgame). apply list_elem_of_filter in Hgame as [[Hst Hinc] Hin].
  exists game. split_and!; try done.
  unfold includes in Hinc. by apply bool_decide_eq_true in Hinc.
Qed.

(** C1. In both rank computations a team of the score mapping is ranked
    1 + the number of distinct score values strictly above its own score:
    [calculateSeasonStandings] credits each team of the mapping by that rank,
    and every entry [getTeamHistory] returns carries that rank for the team's
    score in its game.  For the scores {A:10, B:10, C:5, D:5, E:1} the ranks
    are 1, 1, 2, 2, 3. *)
Theorem rank_is_dense :
  (∀ (scores : list (string * Z)) (t : string) (sc : Z),
     JsObj.get scores t = Some sc →
     rankOf scores sc = 1 + Z.of_nat (distinctAbove scores sc))
  ∧ (∀ (game : Game.t) (standingsMap : list (string * RoyaltyStandings.t))
       (t : string) (sc : Z) (s : RoyaltyStandings.t),
       JsObj.get (calculateGameScores game) t = Some sc →
       JsObj.get standingsMap t = Some s →
       JsObj.get (creditTeam (calculateGameScores game) standingsMap (t, sc)) t =
         Some (applyRank s
                 (1 + Z.of_nat (distinctAbove (calculateGameScores game) sc))))
  ∧ (∀ (getTime : string → Z) (teamId : string) (games : list Game.t)
       (hosts : option (list Host.t)) (h : HistoryEntry.t),
       h ∈ getTeamHistory getTime teamId games hosts →
       let scores := calculateGameScores (HistoryEntry.game h) in
       JsObj.get scores teamId = Some (HistoryEntry.score h)
       ∧ HistoryEntry.rank h =
           1 + Z.of_nat (distinctAbove scores (HistoryEntry.score h)))
  ∧ (let scores := calculateGameScores fiveTeamGame in
     scores = [("A", 10); ("B", 10); ("C", 5); ("D", 5); ("E", 1)]
     ∧ (λ t, rankOf scores (default 0 (JsObj.get scores t)))
         <$> ["A"; "B"; "C"; "D"; "E"] = [1; 1; 2; 2; 3]
     ∧ (λ t, HistoryEntry.rank (historyEntry t None fiveTeamGame))
         <$> ["A"; "B"; "C"; "D"; "E"] = [1; 1; 2; 2; 3]).
Proof.
  split_and!.
  - intros scores t sc Hget. apply rankOf_present. by eapply get_Some_values.
  - intros game standingsMap t sc s Hsc Hs. unfold creditTeam. simpl.
    rewrite Hs, JsObjFacts.get_put_eq. do 2 f_equal.
    apply rankOf_present. by eapply get_Some_values.
  - intros getTime teamId games hosts h
      (game & _ & _ & Hin & ->)%getTeamHistory_entries.
    destruct (historyEntry_participant teamId hosts game Hin) as (_ & Hs & Hr).
    split; [exact Hs | exact Hr].
  - by vm_compute.
Qed.

Lemma rank_is_dense_sample :
  JsObj.get [("A", 10); ("B", 10); ("C", 5)] "C" = Some 5
  ∧ rankOf [("A", 10); ("B", 10); ("C", 5)] 5 = 2.
Proof.
  split; [reflexivity|].
  etrans; [by apply (proj1 rank_is_dense _ "C" 5) | by vm_compute].
Defined.

(** ** Season standings *)

Lemma get_creditTeam scores standingsMap entry t :
  JsObj.get (creditTeam scores standingsMap entry) t =
    if decide (entry.1 = t)
    then (λ s, applyRank s (rankOf scores entry.2)) <$> JsObj.get standingsMap t
    else JsObj.get standingsMap t.
Proof.
  unfold creditTeam. destruct (JsObj.get standingsMap entry.1) as [s|] eqn:Hs.
  - destruct (decide (entry.1 = t)) as [<-|Hne].
    + by rewrite JsObjFacts.get_put_eq, Hs.
    + by rewrite JsObjFacts.get_put_ne.
  - destruct (decide (entry.1 = t)) as [<-|Hne]; [by rewrite Hs | done].
Qed.

Lemma keys_creditTeam scores standingsMap entry :
  JsObj.keys (creditTeam scores standingsMap entry) = JsObj.keys standingsMap.
Proof.
  unfold creditTeam. destruct (JsObj.get standingsMap entry.1) as [s|] eqn:Hs; [|done].
  apply JsObjFacts.keys_put_present, JsObjFacts.get_is_Some. by exists s.
Qed.

Lemma creditTeam_unknown scores standingsMap entry :
  JsObj.get standingsMap entry.1 = None →
  creditTeam scores standingsMap entry = standingsMap.
Proof. intros Hnone. unfold creditTeam. by rewrite Hnone. Qed.

Lemma get_foldl_creditTeam_other scores l standingsMap t :
  t ∉ l.*1 →
  JsObj.get (foldl (creditTeam scores) standingsMap l) t = JsObj.get standingsMap t.
Proof.
  revert standingsMap. induction l as [|e l IH]; intros sm Hnin; simpl; [done|].
  rewrite fmap_cons in Hnin. apply not_elem_of_cons in Hnin as [Hne Hnin].
  rewrite IH by done. rewrite get_creditTeam. by rewrite decide_False.
Qed.

Lemma get_foldl_creditTeam scores l standingsMap t sc :
  NoDup l.*1 → (t, sc) ∈ l →
  JsObj.get (foldl (creditTeam scores) standingsMap l) t =
    (λ s, applyRank s (rankOf scores sc)) <$> JsObj.get standingsMap t.
Proof.
  revert standingsMap. induction l as [|e l IH]; intros sm Hnd Hin; simpl.
  - by apply elem_of_nil in Hin.
  - rewrite fmap_cons in Hnd. apply NoDup_cons in Hnd as [Hnin Hnd].
    apply elem_of_cons in Hin as [<-|Hin].
    + rewrite get_foldl_creditTeam_other by done.
      rewrite get_creditTeam. simpl. by rewrite decide_True.
    + rewrite IH by done. rewrite get_creditTeam.
      rewrite decide_False; [done|].
      intros Heq. apply Hnin. rewrite Heq.
      apply list_elem_of_fmap. by exists (t, sc).
Qed.

Lemma keys_foldl_creditTeam scores l standingsMap :
  JsObj.keys (foldl (creditTeam scores) standingsMap l) = JsObj.keys standingsMap.
Proof.
  revert standingsMap. induction l as [|e l IH]; intros sm; simpl; [done|].
  by rewrite IH, keys_creditTeam.
Qed.

(** What one game does to the standings record of a team. *)
Lemma get_creditGame standingsMap game t :
  JsObj.get (creditGame standingsMap game) t =
    match JsObj.get (calculateGameScores game) t with
    | Some sc =>
        (λ s, applyRank s (rankOf (calculateGameScores game) sc))
          <$> JsObj.get standingsMap t
    | None => JsObj.get standingsMap t
    end.
Proof.
  unfold creditGame, JsObj.entries.
  set (scores := calculateGameScores game).
  set (cmp := λ a b : string * Z, b.2 - a.2).
  assert (NoDup (sort cmp scores).*1) as Hnd.
  { rewrite sort_Permutation. apply calculateGameScores_NoDup. }
  destruct (JsObj.get scores t) as [sc|] eqn:Hsc.
  - assert ((t, sc) ∈ sort cmp scores) as Hin.
    { rewrite elem_of_sort. by apply JsObjFacts.get_Some_elem_of. }
    case_decide as Hlen.
    + apply nil_length_inv in Hlen. rewrite Hlen in Hin.
      by apply elem_of_nil in Hin.
    + by apply get_foldl_creditTeam.
  - case_decide; [done|]. apply get_foldl_creditTeam_other.
    rewrite sort_Permutation. by apply JsObjFacts.get_None.
Qed.

Lemma keys_creditGame standingsMap game :
  JsObj.keys (creditGame standingsMap game) = JsObj.keys standingsMap.
Proof.
  unfold creditGame. case_decide; [done|]. apply keys_foldl_creditTeam.
Qed.

Lemma applyRank_fields s teamRank :
  applyRank s teamRank =
    RoyaltyStandings.mk (RoyaltyStandings.teamId s) (RoyaltyStandings.teamName s)
      (RoyaltyStandings.points s + 1
       + (if decide (teamRank = 1) then 10
          else if decide (teamRank = 2) then 5
          else if decide (teamRank = 3) then 3 else 0))
      (RoyaltyStandings.gamesPlayed s + 1)
      (RoyaltyStandings.wins s + (if decide (teamRank = 1) then 1 else 0)).
Proof.
  unfold applyRank, addWins, addPoints, addGamesPlayed. destruct s; simpl.
  repeat case_decide; f_equal; lia.
Qed.

(** C3. For each game [calculateSeasonStandings] processes, a team of the
    game's score mapping that is on the roster gains one game played, one
    participation point, and by its dense rank in that game: 10 points and a
    win at rank 1, 5 points at rank 2, 3 points at rank 3, nothing from rank 4
    on.  A team absent from the mapping keeps its record.  One archived
    Regular game with scores {A:50, B:50, C:30} gives A and B 11 points and a
    win each, and C 6 points and no win. *)
Theorem season_points_per_game :
  (∀ (standingsMap : list (string * RoyaltyStandings.t)) (game : Game.t)
     (t : string) (sc : Z) (s : RoyaltyStandings.t),
     JsObj.get (calculateGameScores game) t = Some sc →
     JsObj.get standingsMap t = Some s →
     let teamRank := 1 + Z.of_nat (distinctAbove (calculateGameScores game) sc) in
     JsObj.get (creditGame standingsMap game) t =
       Some (RoyaltyStandings.mk
               (RoyaltyStandings.teamId s) (RoyaltyStandings.teamName s)
               (RoyaltyStandings.points s + 1
                + (if decide (teamRank = 1) then 10
                   else if decide (teamRank = 2) then 5
                   else if decide (teamRank = 3) then 3 else 0))
               (RoyaltyStandings.gamesPlayed s + 1)
               (RoyaltyStandings.wins s + (if decide (teamRank = 1) then 1 else 0))))
  ∧ (∀ (standingsMap : list (string * RoyaltyStandings.t)) (game : Game.t)
       (t : string),
       JsObj.get (calculateGameScores game) t = None →
       JsObj.get (creditGame standingsMap game) t = JsObj.get standingsMap t)
  ∧ (∀ (seasonId : string) (games : list Game.t) (teams : list Team.t),
       seasonStandingsMap seasonId games teams =
         foldl creditGame (initialStandings teams)
               (filter (λ g, isSeasonGame seasonId g = true) games))
  ∧ (calculateGameScores threeTeamGame = [("A", 50); ("B", 50); ("C", 30)]
     ∧ calculateSeasonStandings "s1" [threeTeamGame]
         [sampleTeam "A"; sampleTeam "B"; sampleTeam "C"]
       = [RoyaltyStandings.mk "A" "A" 11 1 1;
          RoyaltyStandings.mk "B" "B" 11 1 1;
          RoyaltyStandings.mk "C" "C" 6 1 0]).
Proof.
  split_and!.
  - intros standingsMap game t sc s Hsc Hs teamRank.
    rewrite get_creditGame, Hsc, Hs. simpl. f_equal.
    rewrite applyRank_fields.
    by rewrite (rankOf_present _ _ (get_Some_values _ _ _ Hsc)).
  - intros standingsMap game t Hnone. by rewrite get_creditGame, Hnone.
  - done.
  - by vm_compute.
  - by vm_compute.
Qed.

Lemma season_points_per_game_sample :
  let standingsMap := initialStandings [sampleTeam "A"; sampleTeam "C"] in
  JsObj.get (calculateGameScores threeTeamGame) "C" = Some 30
  ∧ JsObj.get standingsMap "C" = Some (RoyaltyStandings.mk "C" "C" 0 0 0)
  ∧ JsObj.get (creditGame standingsMap threeTeamGame) "C" =
      Some (RoyaltyStandings.mk "C" "C" 6 1 0).
Proof.
  split; [reflexivity|]. split; [reflexivity|].
  etrans; [by apply (proj1 season_points_per_game _ threeTeamGame "C" 30) |].
  by vm_compute.
Defined.

Lemma keyed_put standingsMap k s :
  keyed standingsMap → RoyaltyStandings.teamId s = k →
  keyed (JsObj.put standingsMap k s).
Proof.
  unfold keyed. intros Hall Hk.
  induction Hall as [|[k0 s0] sm Hhd Hall IH]; simpl.
  - by repeat constructor.
  - case_decide; constructor; done.
Qed.

Lemma keyed_values standingsMap :
  keyed standingsMap →
  RoyaltyStandings.teamId <$> JsObj.values standingsMap = JsObj.keys standingsMap.
Proof.
  unfold keyed, JsObj.values, JsObj.keys.
  induction 1 as [|[k s] sm Hhd Hall IH]; [done|].
  rewrite !fmap_cons. simpl in *. by rewrite Hhd, IH.
Qed.

Lemma applyRank_teamId s teamRank :
  RoyaltyStandings.teamId (applyRank s teamRank) = RoyaltyStandings.teamId s.
Proof. by rewrite applyRank_fields. Qed.

Lemma keyed_creditTeam scores standingsMap entry :
  keyed standingsMap → keyed (creditTeam scores standingsMap entry).
Proof.
  intros Hk. unfold creditTeam.
  destruct (JsObj.get standingsMap entry.1) as [s|] eqn:Hs; [|done].
  apply keyed_put; [done|]. rewrite applyRank_teamId.
  apply JsObjFacts.get_Some_elem_of in Hs.
  unfold keyed in Hk. rewrite Forall_forall in Hk. apply (Hk _ Hs).
Qed.

Lemma keyed_creditGame standingsMap game :
  keyed standingsMap → keyed (creditGame standingsMap game).
Proof.
  intros Hk. unfold creditGame. case_decide; [done|].
  generalize (sort (λ a b : string * Z, b.2 - a.2)
                   (JsObj.entries (calculateGameScores game))).
  intros l. revert standingsMap Hk.
  induction l as [|e l IH]; intros sm Hk; simpl; [done|].
  by apply IH, keyed_creditTeam.
Qed.

Section standings_folds.
Variable games : list Game.t.

Lemma keys_foldl_creditGame standingsMap :
  JsObj.keys (foldl creditGame standingsMap games) = JsObj.keys standingsMap.
Proof.
  revert standingsMap. induction games as [|g gs IH]; intros sm; simpl; [done|].
  by rewrite IH, keys_creditGame.
Qed.

Lemma keyed_foldl_creditGame standingsMap :
  keyed standingsMap → keyed (foldl creditGame standingsMap games).
Proof.
  revert standingsMap. induction games as [|g gs IH]; intros sm Hk; simpl; [done|].
  by apply IH, keyed_creditGame.
Qed.

Lemma get_foldl_creditGame_absent standingsMap t :
  (∀ g, g ∈ games → t ∉ Game.participatingTeamIds g) →
  JsObj.get (foldl creditGame standingsMap games) t = JsObj.get standingsMap t.
Proof.
  revert standingsMap. induction games as [|g gs IH]; intros sm Habs; simpl; [done|].
  rewrite IH by (intros g' Hg'; apply Habs; by right).
  rewrite get_creditGame, calculateGameScores_get.
  rewrite decide_False; [done|]. apply Habs. left.
Qed.
End standings_folds.

Section initial_standings.
Let blank (team : Team.t) : RoyaltyStandings.t :=
  RoyaltyStandings.mk (Team.id team) (Team.name team) 0 0 0.

Lemma initialStandings_fold teams standingsMap :
  let r := foldl (λ standingsMap team,
                    JsObj.put standingsMap (Team.id team) (blank team))
                 standingsMap teams in
  (NoDup (JsObj.keys standingsMap) → NoDup (JsObj.keys r))
  ∧ (keyed standingsMap → keyed r)
  ∧ (∀ t, t ∈ JsObj.keys r ↔ t ∈ JsObj.keys standingsMap ∨ t ∈ Team.id <$> teams)
  ∧ (∀ t, t ∈ Team.id <$> teams →
          ∃ name, JsObj.get r t = Some (RoyaltyStandings.mk t name 0 0 0)).
Proof.
  revert standingsMap. induction teams as [|team teams IH]; intros sm; simpl.
  - split_and!; try done.
    + intros t. split; [by left | intros [?|[]%elem_of_nil]; done].
    + intros t []%elem_of_nil.
  - destruct (IH (JsObj.put sm (Team.id team) (blank team)))
      as (Hnd & Hk & Hkeys & Hget).
    split_and!.
    + intros ?. by apply Hnd, JsObjFacts.NoDup_keys_put.
    + intros ?. by apply Hk, keyed_put.
    + intros t. rewrite Hkeys, JsObjFacts.elem_of_keys_put, elem_of_cons. tauto.
    + intros t Hin. destruct (decide (t ∈ Team.id <$> teams)) as [Hin'|Hnin].
      * by apply Hget.
      * apply elem_of_cons in Hin as [->|Hin]; [|done].
        exists (Team.name team).
        assert (∀ l sm',
                  Team.id team ∉ Team.id <$> l →
                  JsObj.get (foldl (λ standingsMap team,
                                      JsObj.put standingsMap (Team.id team)
                                                (blank team)) sm' l)
                            (Team.id team)
                  = JsObj.get sm' (Team.id team)) as Hkeep.
        { clear. induction l as [|x l IH]; intros sm' Hnin; simpl; [done|].
          rewrite fmap_cons in Hnin. apply not_elem_of_cons in Hnin as [Hne Hnin].
          rewrite IH by done. by rewrite JsObjFacts.get_put_ne. }
        rewrite Hkeep by done. by rewrite JsObjFacts.get_put_eq.
Qed.
End initial_standings.

Lemma seasonStandingsMap_shape seasonId games teams :
  let m := seasonStandingsMap seasonId games teams in
  NoDup (JsObj.keys m) ∧ keyed m
  ∧ ∀ t, t ∈ JsObj.keys m ↔ t ∈ Team.id <$> teams.
Proof.
  unfold seasonStandingsMap.
  destruct (initialStandings_fold teams []) as (Hnd & Hk & Hkeys & _).
  rewrite keys_foldl_creditGame. split_and!.
  - apply Hnd, NoDup_nil_2.
  - apply keyed_foldl_creditGame, Hk. constructor.
  - intros t. unfold initialStandings. rewrite Hkeys.
    split; [intros [[]%elem_of_nil|]; done | by right].
Qed.

(** A score with a higher score in the mapping is not ranked first. *)
Lemma rankOf_not_first scores sc scx :
  sc ∈ JsObj.values scores → scx ∈ JsObj.values scores → sc < scx →
  2 ≤ rankOf scores sc.
Proof.
  intros Hsc Hscx Hlt. rewrite rankOf_present by done.
  enough (distinctAbove scores sc ≠ 0%nat) by lia.
  unfold distinctAbove. intros Hsize. apply size_empty_iff in Hsize.
  apply (not_elem_of_empty (C:=gset Z) scx). rewrite <-Hsize.
  apply elem_of_filter. split; [done | by apply elem_of_list_to_set].
Qed.

(** C10, refuted as stated.  A team of the score mapping that is not on the
    roster does alter the totals of other teams: its score is one of the
    values the ranks are computed from.  With scores {A:2, X:3} and a roster
    without X, A is ranked second and gains 6 points and no win; the same
    ledger without X in the game gives A 11 points and a win.  Two roster
    teams sharing an identifier get one entry between them, under the name of
    the later one. *)
Lemma unlisted_team_lowers_rank :
  (let ledger := [QuestionResult.mk 0 0 0 ["A"; "X"] 2;
                  QuestionResult.mk 0 0 1 ["X"] 1] in
   let withX := sampleGame Regular Archived None false (Stage.mk 0 0 2)
                  ["A"; "X"] ledger in
   let withoutX := sampleGame Regular Archived None false (Stage.mk 0 0 2)
                     ["A"] ledger in
   calculateGameScores withX = [("A", 2); ("X", 3)]
   ∧ calculateGameScores withoutX = [("A", 2)]
   ∧ calculateSeasonStandings "s1" [withX] [sampleTeam "A"]
     = [RoyaltyStandings.mk "A" "A" 6 1 0]
   ∧ calculateSeasonStandings "s1" [withoutX] [sampleTeam "A"]
     = [RoyaltyStandings.mk "A" "A" 11 1 1])
  ∧ calculateSeasonStandings "s1" []
      [Team.mk "A" "Alpha" "" None [] None; Team.mk "A" "Beta" "" None [] None]
    = [RoyaltyStandings.mk "A" "Beta" 0 0 0].
Proof. by vm_compute. Qed.

(** C10, amended.  [calculateSeasonStandings] returns one entry per distinct
    team identifier of the roster and no other entry; a team that took part
    in no eligible game has 0 points, 0 games played and 0 wins.  A team of a
    game's score mapping that is not on the roster is skipped: its turn
    leaves the standings map as it is, no entry is made for it and nothing
    fails.  Its score still counts among the values that rank the game: a
    roster team is credited by its rank over the whole mapping, so any team
    of the mapping with a higher score, on the roster or not, keeps it from
    rank 1, that is from the win and from more than 6 points for the game. *)
Theorem standings_cover_roster :
  (∀ (seasonId : string) (games : list Game.t) (teams : list Team.t),
     let standings := calculateSeasonStandings seasonId games teams in
     NoDup (RoyaltyStandings.teamId <$> standings)
     ∧ ∀ t, t ∈ RoyaltyStandings.teamId <$> standings ↔ t ∈ Team.id <$> teams)
  ∧ (∀ (seasonId : string) (games : list Game.t) (teams : list Team.t)
       (s : RoyaltyStandings.t),
       s ∈ calculateSeasonStandings seasonId games teams →
       (∀ g, g ∈ games → isSeasonGame seasonId g = true →
             RoyaltyStandings.teamId s ∉ Game.participatingTeamIds g) →
       RoyaltyStandings.points s = 0
       ∧ RoyaltyStandings.gamesPlayed s = 0
       ∧ RoyaltyStandings.wins s = 0)
  ∧ (∀ (scores : list (string * Z))
       (standingsMap : list (string * RoyaltyStandings.t)) (t : string) (sc : Z),
       JsObj.get standingsMap t = None →
       creditTeam scores standingsMap (t, sc) = standingsMap)
  ∧ (∀ (standingsMap : list (string * RoyaltyStandings.t)) (game : Game.t),
       JsObj.keys (creditGame standingsMap game) = JsObj.keys standingsMap)
  ∧ (let game := sampleGame Regular Archived None false (Stage.mk 0 0 1)
                   ["A"; "X"] [QuestionResult.mk 0 0 0 ["A"; "X"] 2] in
     calculateGameScores game = [("A", 2); ("X", 2)]
     ∧ calculateSeasonStandings "s1" [game] [sampleTeam "A"; sampleTeam "B"]
       = [RoyaltyStandings.mk "A" "A" 11 1 1; RoyaltyStandings.mk "B" "B" 0 0 0])
  ∧ (∀ (standingsMap : list (string * RoyaltyStandings.t)) (game : Game.t)
       (t : string) (sc : Z) (s : RoyaltyStandings.t),
       JsObj.get (calculateGameScores game) t = Some sc →
       JsObj.get standingsMap t = Some s →
       JsObj.get (creditGame standingsMap game) t =
         Some (applyRank s
                 (1 + Z.of_nat (distinctAbove (calculateGameScores game) sc))))
  ∧ (∀ (standingsMap : list (string * RoyaltyStandings.t)) (game : Game.t)
       (t x : string) (sc scx : Z) (s : RoyaltyStandings.t),
       JsObj.get (calculateGameScores game) t = Some sc →
       JsObj.get (calculateGameScores game) x = Some scx →
       sc < scx →
       JsObj.get standingsMap t = Some s →
       ∃ s', JsObj.get (creditGame standingsMap game) t = Some s'
             ∧ RoyaltyStandings.wins s' = RoyaltyStandings.wins s
             ∧ RoyaltyStandings.gamesPlayed s' = RoyaltyStandings.gamesPlayed s + 1
             ∧ RoyaltyStandings.points s + 1 ≤ RoyaltyStandings.points s'
               ≤ RoyaltyStandings.points s + 6)
  ∧ (let game := sampleGame Regular Archived None false (Stage.mk 0 0 2)
                   ["A"; "X"]
                   [QuestionResult.mk 0 0 0 ["A"; "X"] 2;
                    QuestionResult.mk 0 0 1 ["X"] 1] in
     calculateGameScores game = [("A", 2); ("X", 3)]
     ∧ calculateSeasonStandings "s1" [game] [sampleTeam "A"; sampleTeam "B"]
       = [RoyaltyStandings.mk "A" "A" 6 1 0; RoyaltyStandings.mk "B" "B" 0 0 0]).
Proof.
  split_and!.
  - intros seasonId games teams standings. subst standings.
    unfold calculateSeasonStandings.
    destruct (seasonStandingsMap_shape seasonId games teams) as (Hnd & Hk & Hkeys).
    split; [|intros t]; rewrite sort_Permutation, keyed_values by done;
      [done | apply Hkeys].
  - intros seasonId games teams s Hs Habs.
    unfold calculateSeasonStandings in Hs. rewrite elem_of_sort in Hs.
    destruct (seasonStandingsMap_shape seasonId games teams) as (Hnd & Hk & Hkeys).
    apply list_elem_of_fmap in Hs as ([k s'] & -> & Hin). simpl in *.
    assert (RoyaltyStandings.teamId s' = k) as Hid.
    { unfold keyed in Hk. rewrite Forall_forall in Hk. apply (Hk _ Hin). }
    subst k. pose proof (JsObjFacts.elem_of_get_Some _ _ _ Hnd Hin) as Hget.
    assert (RoyaltyStandings.teamId s' ∈ Team.id <$> teams) as Hroster.
    { apply Hkeys. unfold JsObj.keys. apply list_elem_of_fmap.
      by exists (RoyaltyStandings.teamId s', s'). }
    unfold seasonStandingsMap in Hget.
    rewrite get_foldl_creditGame_absent in Hget.
    + destruct (initialStandings_fold teams []) as (_ & _ & _ & Hinit).
      destruct (Hinit _ Hroster) as [name Hname].
      unfold initialStandings in Hget. rewrite Hname in Hget.
      injection Hget as <-. done.
    + intros g [Hel Hg]%list_elem_of_filter. by apply Habs.
  - intros scores standingsMap t sc Hnone. by apply creditTeam_unknown.
  - intros. apply keys_creditGame.
  - by vm_compute.
  - intros standingsMap game t sc s Hsc Hs.
    rewrite get_creditGame, Hsc, Hs. simpl.
    by rewrite (rankOf_present _ _ (get_Some_values _ _ _ Hsc)).
  - intros standingsMap game t x sc scx s Hsc Hscx Hlt Hs.
    eexists. rewrite get_creditGame, Hsc, Hs. simpl. split; [done|].
    pose proof (rankOf_not_first _ _ _ (get_Some_values _ _ _ Hsc)
                  (get_Some_values _ _ _ Hscx) Hlt) as Hrank.
    rewrite applyRank_fields. simpl.
    repeat case_decide; split_and!; lia.
  - by vm_compute.
Qed.

Lemma standings_cover_roster_sample :
  let game := sampleGame Regular Archived None false (Stage.mk 0 0 1)
                ["A"; "X"] [QuestionResult.mk 0 0 0 ["A"; "X"] 2] in
  let standingsMap := initialStandings [sampleTeam "A"; sampleTeam "B"] in
  JsObj.get standingsMap "X" = None
  ∧ creditTeam (calculateGameScores game) standingsMap ("X", 2) = standingsMap
  ∧ JsObj.get (calculateGameScores game) "A" = Some 2
  ∧ JsObj.get (creditGame standingsMap game) "A"
    = Some (RoyaltyStandings.mk "A" "A" 11 1 1).
Proof.
  destruct standings_cover_roster as (_ & _ & Hskip & _ & _ & Hrank & _).
  split; [reflexivity|]. split; [apply Hskip; reflexivity|].
  split; [reflexivity|].
  etrans; [apply (Hrank _ _ "A" 2); reflexivity | by vm_compute].
Defined.

(** ** Additivity of the per-set breakdown *)

Lemma sumOver_cons {A} (f : A → Z) x l : sumOver f (x :: l) = f x + sumOver f l.
Proof. done. Qed.

Lemma sumOver_zero {A} (l : list A) : sumOver (λ _, 0) l = 0.
Proof. induction l as [|x l IH]; simpl; lia. Qed.

Section sums.
Context {A : Type}.
Implicit Types (f g : A → Z) (l : list A).

Lemma sumOver_ext f g l :
  (∀ x, x ∈ l → f x = g x) → sumOver f l = sumOver g l.
Proof.
  induction l as [|x l IH]; intros Heq; simpl; [done|].
  rewrite (Heq x) by left. rewrite IH; [done|].
  intros y Hy. apply Heq. by right.
Qed.

Lemma sumOver_plus f g l :
  sumOver (λ x, f x + g x) l = sumOver f l + sumOver g l.
Proof. induction l as [|x l IH]; simpl; lia. Qed.

Lemma sumOver_filter (P : A → Prop) `{!∀ x, Decision (P x)} f l :
  sumOver f (filter P l) = sumOver (λ x, if decide (P x) then f x else 0) l.
Proof.
  induction l as [|x l IH]; [done|].
  rewrite filter_cons. simpl. destruct (decide (P x)); simpl; lia.
Qed.

Lemma foldl_add_if (c : A → bool) f l acc :
  foldl (λ acc x, if c x then acc + f x else acc) acc l
  = acc + sumOver (λ x, if c x then f x else 0) l.
Proof.
  revert acc. induction l as [|x l IH]; intros acc; simpl; [lia|].
  rewrite IH. destruct (c x); lia.
Qed.

Lemma foldl_add f l acc :
  foldl (λ acc x, acc + f x) acc l = acc + sumOver f l.
Proof.
  revert acc. induction l as [|x l IH]; intros acc; simpl; [lia|].
  rewrite IH. lia.
Qed.

(** Selecting one element of a duplicate-free list. *)
Lemma sumOver_select `{!EqDecision A} (x : A) (v : Z) l :
  NoDup l →
  sumOver (λ y, if decide (y = x) then v else 0) l
  = if decide (x ∈ l) then v else 0.
Proof.
  induction 1 as [|y l Hnin Hnd IH].
  - rewrite decide_False; [done | apply not_elem_of_nil].
  - rewrite sumOver_cons, IH. destruct (decide (y = x)) as [->|Hne].
    + rewrite decide_False by done. rewrite decide_True by left. lia.
    + destruct (decide (x ∈ l)) as [Hin|Hin'].
      * rewrite decide_True by (by right). lia.
      * rewrite decide_False; [lia|]. by intros [->|?]%elem_of_cons.
Qed.
End sums.

Lemma sumOver_swap {A B} (F : A → B → Z) (l : list A) (k : list B) :
  sumOver (λ x, sumOver (F x) k) l = sumOver (λ y, sumOver (λ x, F x y) l) k.
Proof.
  induction l as [|x l IH]; simpl.
  - by rewrite sumOver_zero.
  - by rewrite IH, sumOver_plus.
Qed.

Lemma NoDup_setIndices game : NoDup (setIndices game).
Proof.
  unfold setIndices. apply NoDup_fmap; [apply _ | apply NoDup_seq].
Qed.

Lemma summaryRow_fold (f : Z → Z) l setScores total :
  foldl (λ '(setScores, total) setId,
           let setScore := f setId in (setScores ++ [setScore], total + setScore))
        (setScores, total) l
  = (setScores ++ (f <$> l), total + sumOver f l).
Proof.
  revert setScores total. induction l as [|x l IH]; intros ss tot; simpl.
  - by rewrite app_nil_r, Z.add_0_r.
  - rewrite IH. rewrite <-app_assoc. simpl. f_equal. lia.
Qed.

Lemma summaryRow_fields game team :
  summaryRow game team =
    SummaryRow.mk team (setScoreOf game (Team.id team) <$> setIndices game)
      (sumOver (setScoreOf game (Team.id team)) (setIndices game)).
Proof. unfold summaryRow. by rewrite summaryRow_fold. Qed.

(** The score shown for one set, as sums over the whole ledger and log. *)
Lemma setScoreOf_sums game t setId :
  setScoreOf game t setId =
    sumOver (λ r, if decide (setId = QuestionResult.setId r)
                  then if includes (QuestionResult.correctTeamIds r) t
                       then QuestionResult.points r else 0
                  else 0) (Game.results game)
    + sumOver (λ a, if decide (setId = ManualAdjustment.setId a)
                    then adjustmentWorth t a else 0) (adjustmentsOf game).
Proof.
  unfold setScoreOf. rewrite foldl_add_if, foldl_add, !sumOver_filter, !Z.add_0_l.
  f_equal; apply sumOver_ext; intros x _; unfold adjustmentWorth;
    repeat case_decide; destruct_and?; try done.
  exfalso. auto.
Qed.

(** Summed over duplicate-free set indices, the breakdown counts each ledger
    entry and each adjustment whose set index is listed exactly once. *)
Lemma sum_setScoreOf game t (sets : list Z) :
  NoDup sets →
  sumOver (setScoreOf game t) sets =
    sumOver (λ r, if decide (QuestionResult.setId r ∈ sets)
                  then if includes (QuestionResult.correctTeamIds r) t
                       then QuestionResult.points r else 0
                  else 0) (Game.results game)
    + sumOver (λ a, if decide (ManualAdjustment.setId a ∈ sets)
                    then adjustmentWorth t a else 0) (adjustmentsOf game).
Proof.
  intros Hnd.
  rewrite (sumOver_ext _ _ _ (λ setId _, setScoreOf_sums game t setId)).
  rewrite sumOver_plus.
  f_equal; rewrite sumOver_swap; apply sumOver_ext; intros x _;
    by rewrite sumOver_select.
Qed.

Lemma entryWorth_NoDup t r :
  NoDup (QuestionResult.correctTeamIds r) →
  entryWorth t r =
    if includes (QuestionResult.correctTeamIds r) t
    then QuestionResult.points r else 0.
Proof.
  intros Hnd. unfold entryWorth, includes. rewrite sumOver_select by done.
  by destruct (decide (t ∈ _)) as [Hin|Hin];
    [rewrite bool_decide_eq_true_2 | rewrite bool_decide_eq_false_2].
Qed.

(** C2, refuted as stated.  The whole-game total counts every ledger entry
    and adjustment of a team, the breakdown only those of the displayed sets
    and each entry once: a bonus-set entry of a game whose bonus round is
    switched off, or a team listed twice in an entry, makes the two differ. *)
Lemma total_differs_from_set_sum :
  (let game := sampleGame Regular Live None false (Stage.mk 4 0 1) ["A"]
                 [QuestionResult.mk 0 0 0 ["A"] 1; QuestionResult.mk 4 0 0 ["A"] 2] in
   let row := summaryRow game (sampleTeam "A") in
   JsObj.get (calculateGameScores game) "A" = Some 3
   ∧ SummaryRow.setScores row = [1; 0; 0; 0]
   ∧ SummaryRow.total row = 1)
  ∧ (let game := sampleGame Regular Live None false (Stage.mk 0 0 1) ["A"]
                   [QuestionResult.mk 0 0 0 ["A"; "A"] 1] in
     let row := summaryRow game (sampleTeam "A") in
     JsObj.get (calculateGameScores game) "A" = Some 2
     ∧ SummaryRow.setScores row = [1; 0; 0; 0]
     ∧ SummaryRow.total row = 1).
Proof. by vm_compute. Qed.

(** C2, amended.  For a participating team whose ledger entries and
    adjustments all carry a set index among the displayed sets
    ([SETS_PER_GAME] sets, plus the bonus set when [hasBonusRound]), and with
    no team listed twice in a ledger entry, the total of
    [calculateGameScores] equals the total of the team's summary row, which
    is the sum of its per-set scores. *)
Theorem total_is_sum_of_sets (game : Game.t) (team : Team.t) :
  Team.id team ∈ Game.participatingTeamIds game →
  Forall (λ r, NoDup (QuestionResult.correctTeamIds r)
               ∧ (Team.id team ∈ QuestionResult.correctTeamIds r →
                  QuestionResult.setId r ∈ setIndices game))
         (Game.results game) →
  Forall (λ a, ManualAdjustment.teamId a = Team.id team →
               ManualAdjustment.setId a ∈ setIndices game)
         (adjustmentsOf game) →
  let row := summaryRow game team in
  JsObj.get (calculateGameScores game) (Team.id team) = Some (SummaryRow.total row)
  ∧ SummaryRow.setScores row = setScoreOf game (Team.id team) <$> setIndices game
  ∧ SummaryRow.total row = sumOver (λ setScore, setScore) (SummaryRow.setScores row).
Proof.
  rewrite !Forall_forall.
  intros Hin Hres Hadj row. subst row. rewrite summaryRow_fields. simpl.
  split_and!; [|done|].
  - rewrite calculateGameScores_get, decide_True by done. f_equal.
    rewrite sum_setScoreOf by apply NoDup_setIndices. unfold gameTotal.
    f_equal; apply sumOver_ext.
    + intros r Hr. destruct (Hres r Hr) as [Hnd Hset].
      rewrite entryWorth_NoDup by done.
      unfold includes. case_bool_decide as Hc; [|by case_decide].
      rewrite decide_True; [done | by apply Hset].
    + intros a Ha. unfold adjustmentWorth.
      destruct (decide (ManualAdjustment.teamId a = Team.id team)) as [Hid|Hid];
        [|by case_decide].
      rewrite decide_True; [done | by apply Hadj].
  - generalize (setIndices game) as l. intros l.
    induction l as [|x l IH]; [done|].
    by rewrite fmap_cons, !sumOver_cons, IH.
Qed.

Lemma total_is_sum_of_sets_sample :
  let row := summaryRow threeTeamGame (sampleTeam "C") in
  JsObj.get (calculateGameScores threeTeamGame) "C" = Some (SummaryRow.total row)
  ∧ SummaryRow.setScores row = [30; 0; 0; 0]
  ∧ SummaryRow.total row = 30.
Proof.
  destruct (total_is_sum_of_sets threeTeamGame (sampleTeam "C")) as (Ht & _ & _).
  - by apply (bool_decide_unpack _).
  - by apply (bool_decide_unpack _).
  - by apply (bool_decide_unpack _).
  - split; [exact Ht|]. by vm_compute.
Defined.

(** * Further properties *)

(** ** Score aggregation, continued *)

Lemma JsObj_ext {V} (o1 o2 : list (string * V)) :
  NoDup (JsObj.keys o1) →
  JsObj.keys o1 = JsObj.keys o2 →
  (∀ k, JsObj.get o1 k = JsObj.get o2 k) →
  o1 = o2.
Proof.
  unfold JsObj.keys. revert o2.
  induction o1 as [|[k1 v1] o1 IH]; intros [|[k2 v2] o2] Hnd Hkeys Hget;
    try done.
  rewrite !fmap_cons in Hkeys, Hnd. simpl in Hkeys, Hnd.
  injection Hkeys as -> Hkeys. apply NoDup_cons in Hnd as [Hnin Hnd].
  pose proof (Hget k2) as Hk. simpl in Hk. rewrite !decide_True in Hk by done.
  injection Hk as ->. f_equal. apply IH; [done..|].
  intros k. specialize (Hget k). simpl in Hget.
  destruct (decide (k2 = k)) as [<-|Hne]; [|done].
  change (o1.*1 = o2.*1) in Hkeys.
  transitivity (@None V); [|symmetry]; apply JsObjFacts.get_None;
    unfold JsObj.keys; [done | by rewrite <-Hkeys].
Qed.

Lemma sumOver_Permutation {A} (f : A → Z) l k :
  l ≡ₚ k → sumOver f l = sumOver f k.
Proof. induction 1; simpl; lia. Qed.

Lemma sumOver_app {A} (f : A → Z) l k :
  sumOver f (l ++ k) = sumOver f l + sumOver f k.
Proof. induction l as [|x l IH]; simpl; lia. Qed.

Lemma sumOver_insert {A} (f : A → Z) l i x y :
  l !! i = Some y → sumOver f (<[i:=x]> l) = sumOver f l - f y + f x.
Proof.
  revert i. induction l as [|z l IH]; intros [|i] Hi; simplify_eq/=; [lia|].
  rewrite (IH i) by done. lia.
Qed.

Lemma keys_foldl_put_0 ids (scores : list (string * Z)) :
  JsObj.keys (foldl (λ scores tId, JsObj.put scores tId 0) scores ids)
  = foldl (λ acc x, if decide (x ∈ acc) then acc else acc ++ [x])
          (JsObj.keys scores) ids.
Proof.
  revert scores. induction ids as [|i ids IH]; intros scores; [done|].
  cbn [foldl]. by rewrite IH, JsObjFacts.keys_put.
Qed.

Lemma calculateGameScores_keys_order game :
  JsObj.keys (calculateGameScores game) = uniqueIds (Game.participatingTeamIds game).
Proof.
  unfold calculateGameScores, uniqueIds.
  destruct (Game.manualAdjustments game) as [adjs|].
  - rewrite (keys_foldl_addIfPresent ManualAdjustment.teamId ManualAdjustment.points).
    by rewrite keys_foldl_results, keys_foldl_put_0.
  - by rewrite keys_foldl_results, keys_foldl_put_0.
Qed.

(** X1. The score mapping has exactly one key per participating team and no
    other key; a participating team scores the points of the ledger entries
    that credit it plus its adjustments, and a team that is not participating
    has no score, whatever the ledger and the log say. *)
Theorem scores_only_for_participants (game : Game.t) (t : string) :
  NoDup (JsObj.keys (calculateGameScores game))
  ∧ (t ∈ JsObj.keys (calculateGameScores game)
     ↔ t ∈ Game.participatingTeamIds game)
  ∧ JsObj.get (calculateGameScores game) t =
      (if decide (t ∈ Game.participatingTeamIds game)
       then Some (sumOver (entryWorth t) (Game.results game)
                  + sumOver (adjustmentWorth t) (adjustmentsOf game))
       else None).
Proof.
  split_and!.
  - apply calculateGameScores_NoDup.
  - apply calculateGameScores_keys.
  - apply calculateGameScores_get.
Qed.

(** X2. The scores do not depend on the order of the ledger or of the
    adjustment log: two games with the same roster whose ledgers and logs are
    rearrangements of each other have the same score mapping. *)
Theorem scores_ignore_ledger_order (g1 g2 : Game.t) :
  Game.participatingTeamIds g1 = Game.participatingTeamIds g2 →
  Game.results g1 ≡ₚ Game.results g2 →
  adjustmentsOf g1 ≡ₚ adjustmentsOf g2 →
  calculateGameScores g1 = calculateGameScores g2.
Proof.
  intros Hteams Hres Hadj. apply JsObj_ext.
  - apply calculateGameScores_NoDup.
  - by rewrite !calculateGameScores_keys_order, Hteams.
  - intros t. rewrite !calculateGameScores_get, Hteams. unfold gameTotal.
    by rewrite (sumOver_Permutation _ _ _ Hres), (sumOver_Permutation _ _ _ Hadj).
Qed.

Lemma scores_ignore_ledger_order_sample :
  let g1 := threeTeamGame in
  let g2 := sampleGame Regular Archived None false (Stage.mk 0 0 2)
              ["A"; "B"; "C"]
              [QuestionResult.mk 0 0 1 ["A"; "B"] 20;
               QuestionResult.mk 0 0 0 ["A"; "B"; "C"] 30] in
  calculateGameScores g1 = calculateGameScores g2.
Proof.
  apply scores_ignore_ledger_order; [reflexivity | apply Permutation_swap | reflexivity].
Defined.

(** X3. Saving a roster keeps the ledger: a team on the new roster scores its
    full ledger and adjustment total, so a team that stays keeps its score and
    a team that is put back gets its earlier credits back; a team taken off
    the roster has no score. *)
Theorem saveRoster_scores (game : Game.t) (rosterIds : list string) (t : string) :
  JsObj.get (calculateGameScores (saveRoster game rosterIds)) t =
    (if decide (t ∈ rosterIds) then Some (gameTotal game t) else None)
  ∧ (t ∈ rosterIds → t ∈ Game.participatingTeamIds game →
     JsObj.get (calculateGameScores (saveRoster game rosterIds)) t =
       JsObj.get (calculateGameScores game) t)
  ∧ Game.results (saveRoster game rosterIds) = Game.results game
  ∧ Game.currentStage (saveRoster game rosterIds) = Game.currentStage game.
Proof.
  split_and!; try done.
  - by rewrite calculateGameScores_get.
  - intros Hin Hold. rewrite !calculateGameScores_get. simpl.
    by rewrite !decide_True.
Qed.

Lemma saveRoster_scores_sample :
  JsObj.get (calculateGameScores (saveRoster threeTeamGame ["C"; "A"])) "C"
  = JsObj.get (calculateGameScores threeTeamGame) "C".
Proof.
  apply (proj1 (proj2 (saveRoster_scores threeTeamGame ["C"; "A"] "C")));
    by apply (bool_decide_unpack _).
Defined.

Lemma fmap_add_ext (o : option Z) a b : a = b → (λ v, v + a) <$> o = (λ v, v + b) <$> o.
Proof. by intros ->. Qed.

(** X4. A saved adjustment is appended to the log under the current set and
    moves the score of the adjusted team, if it is participating, by exactly
    the entered points; every other score stays.  Without a team to adjust the
    handler changes nothing. *)
Theorem saveAdjustment_scores (game : Game.t) (teamId : string)
    (points : Z) (reason uuid timestamp : string) (t : string) :
  teamId ≠ "" →
  let game' := saveAdjustment game (Some teamId) points reason uuid timestamp in
  adjustmentsOf game' =
    adjustmentsOf game
    ++ [ManualAdjustment.mk uuid teamId points
          (Stage.set (Game.currentStage game)) reason timestamp]
  ∧ JsObj.get (calculateGameScores game') t =
      (λ v, v + if decide (teamId = t) then points else 0)
        <$> JsObj.get (calculateGameScores game) t
  ∧ saveAdjustment game None points reason uuid timestamp = game
  ∧ saveAdjustment game (Some "") points reason uuid timestamp = game.
Proof.
  intros Hne game'. subst game'. unfold saveAdjustment.
  rewrite decide_False by done. split_and!; try done.
  rewrite !calculateGameScores_get. cbn [Game.participatingTeamIds withAdjustments].
  case_decide; [|done]. simpl. f_equal. unfold gameTotal.
  cbn [Game.results withAdjustments]. unfold adjustmentsOf at 1.
  cbn [Game.manualAdjustments withAdjustments default from_option id].
  rewrite sumOver_app. simpl. unfold adjustmentWorth at 2. simpl. lia.
Qed.

Lemma saveAdjustment_scores_sample :
  JsObj.get (calculateGameScores
               (saveAdjustment threeTeamGame (Some "C") (-5) "late" "u1" "now")) "C"
  = Some 25.
Proof.
  etrans; [by apply (saveAdjustment_scores threeTeamGame "C")|]. by vm_compute.
Defined.

(** X5. Recording a question changes a team's score by the worth of the new
    entry minus the worth of the entry it replaces, if the coordinate was
    already recorded: recording again corrects the score and never counts a
    question twice. *)
Theorem handleNext_scores (st : LiveGame.t) (t : string) :
  let game := LiveGame.game st in
  let replaced :=
    match list_find (atStage (Game.currentStage game)) (Game.results game) with
    | Some (_, r) => entryWorth t r
    | None => 0
    end in
  JsObj.get (calculateGameScores (LiveGame.game (handleNext st))) t =
    (λ v, v + (entryWorth t (currentResult st) - replaced))
      <$> JsObj.get (calculateGameScores game) t.
Proof.
  intros game replaced. subst replaced. rewrite handleNext_game. fold game.
  rewrite !calculateGameScores_get. cbn [Game.participatingTeamIds Game.withRecorded].
  case_decide; [|done]. simpl. f_equal. unfold gameTotal.
  cbn [Game.results Game.withRecorded]. unfold adjustmentsOf.
  cbn [Game.manualAdjustments Game.withRecorded].
  unfold recordResult.
  destruct (list_find _ (Game.results game)) as [[i r]|] eqn:Hfind.
  - apply list_find_Some in Hfind as (Hi & _ & _).
    rewrite (sumOver_insert _ _ _ _ _ Hi). lia.
  - rewrite sumOver_app. simpl. lia.
Qed.

(** ** Dense ranking, continued *)

Lemma length_uniqueScores scores :
  (length (uniqueScores scores) ≤ length scores)%nat.
Proof.
  unfold uniqueScores. rewrite length_sort.
  destruct (uniqueValues_spec (JsObj.values scores)) as [Hnd Hin].
  transitivity (length (JsObj.values scores)).
  - apply submseteq_length, NoDup_submseteq; [done|]. intros x. by rewrite Hin.
  - unfold JsObj.values. by rewrite length_fmap.
Qed.

Lemma elem_of_uniqueScores scores v :
  v ∈ uniqueScores scores ↔ v ∈ JsObj.values scores.
Proof.
  unfold uniqueScores. rewrite elem_of_sort.
  by destruct (uniqueValues_spec (JsObj.values scores)) as [_ ->].
Qed.

(** X6. Ranks are dense and follow the scores: a score of the mapping is
    ranked between 1 and the number of teams, a higher score is ranked
    strictly better, rank 1 goes exactly to the highest score, and a value
    that is no team's score gets rank 0. *)
Theorem rank_follows_scores (scores : list (string * Z)) :
  (∀ sc, sc ∈ JsObj.values scores →
         1 ≤ rankOf scores sc ≤ Z.of_nat (length scores))
  ∧ (∀ sc1 sc2, sc1 ∈ JsObj.values scores → sc2 ∈ JsObj.values scores →
                sc1 < sc2 → rankOf scores sc2 < rankOf scores sc1)
  ∧ (∀ sc, sc ∈ JsObj.values scores →
           (rankOf scores sc = 1 ↔ ∀ v, v ∈ JsObj.values scores → v ≤ sc))
  ∧ (∀ sc, sc ∉ JsObj.values scores → rankOf scores sc = 0).
Proof.
  split_and!.
  - intros sc Hin. rewrite rankOf_present by done.
    rewrite <-uniqueScores_above.
    assert (length (filter (λ v, (sc < v)%Z) (uniqueScores scores))
            < length (uniqueScores scores))%nat as Hlt.
    { apply (length_filter_lt _ _ sc); [by apply elem_of_uniqueScores | lia]. }
    pose proof (length_uniqueScores scores). lia.
  - intros sc1 sc2 H1 H2 Hlt. rewrite !rankOf_present by done.
    enough (distinctAbove scores sc2 < distinctAbove scores sc1)%nat by lia.
    unfold distinctAbove. apply subset_size. split.
    + intros v. rewrite !elem_of_filter. intros [? ?]. split; [lia | done].
    + intros Hsub. specialize (Hsub sc2). rewrite !elem_of_filter in Hsub.
      destruct Hsub as [? _]; [|lia].
      split; [done | by apply elem_of_list_to_set].
  - intros sc Hin. rewrite rankOf_present by done. unfold distinctAbove. split.
    + intros Hone v Hv. destruct (decide (v ≤ sc)) as [|Hgt]; [done|].
      assert (size (filter (λ v, sc < v)
                (list_to_set (C:=gset Z) (JsObj.values scores))) = 0%nat)
        as Hsize by lia.
      apply size_empty_iff in Hsize. exfalso.
      apply (not_elem_of_empty (C:=gset Z) v). rewrite <-Hsize.
      apply elem_of_filter. split; [lia | by apply elem_of_list_to_set].
    + intros Hmax.
      replace (filter (λ v, sc < v) (list_to_set (C:=gset Z) (JsObj.values scores)))
        with (∅ : gset Z); [by rewrite size_empty|].
      symmetry. apply leibniz_equiv, elem_of_equiv_empty. intros v.
      rewrite elem_of_filter, elem_of_list_to_set.
      intros [Hlt Hv]. specialize (Hmax v Hv). lia.
  - intros sc Hnin. unfold rankOf, indexOf.
    destruct (list_find _ _) as [[i v]|] eqn:Hfind; [|done].
    apply list_find_Some in Hfind as (Hi & -> & _).
    exfalso. apply Hnin, elem_of_uniqueScores. by eapply list_elem_of_lookup_2.
Qed.

Lemma rank_follows_scores_sample :
  let scores := calculateGameScores fiveTeamGame in
  rankOf scores 10 < rankOf scores 5.
Proof.
  apply (proj1 (proj2 (rank_follows_scores (calculateGameScores fiveTeamGame))));
    by apply (bool_decide_unpack _).
Defined.

(** ** Sorting by a key *)

Section sort_by_key.
Context {A : Type} (key : A → Z).

Lemma sortInsert_key_descending x l :
  Sorted (λ a b, key b ≤ key a) l →
  Sorted (λ a b, key b ≤ key a) (sortInsert (λ a b, key b - key a) x l).
Proof.
  induction 1 as [|y l Hs IH Hhd]; simpl.
  - repeat constructor.
  - destruct (Z.ltb_spec 0 (key y - key x)).
    + constructor; [done|].
      destruct Hhd as [|z l Hz]; simpl.
      * constructor. lia.
      * destruct (0 <? key z - key x); constructor; lia.
    + repeat constructor; [done.. | lia].
Qed.

Lemma sort_key_descending l :
  Sorted (λ a b, key b ≤ key a) (sort (λ a b, key b - key a) l).
Proof.
  induction l as [|x l IH]; simpl; [constructor|].
  by apply sortInsert_key_descending.
Qed.
End sort_by_key.

(** ** Season standings, continued *)

Lemma get_foldl_creditGame standingsMap games t :
  JsObj.get (foldl creditGame standingsMap games) t =
    (λ s, foldl (λ s g, applyRank s (rankIn g t)) s
                (filter (λ g, t ∈ Game.participatingTeamIds g) games))
      <$> JsObj.get standingsMap t.
Proof.
  revert standingsMap. induction games as [|g games IH]; intros sm.
  - rewrite filter_nil. cbn [foldl]. by destruct (JsObj.get sm t).
  - cbn [foldl]. rewrite IH, get_creditGame, calculateGameScores_get.
    rewrite filter_cons. case_decide; [|done].
    destruct (JsObj.get sm t); [|done]. cbn [fmap option_fmap option_map foldl].
    done.
Qed.

Lemma foldl_applyRank_fields {A} (r : A → Z) (l : list A) s :
  foldl (λ s g, applyRank s (r g)) s l =
    RoyaltyStandings.mk (RoyaltyStandings.teamId s) (RoyaltyStandings.teamName s)
      (RoyaltyStandings.points s + sumOver (λ g, 1 + rankBonus (r g)) l)
      (RoyaltyStandings.gamesPlayed s + Z.of_nat (length l))
      (RoyaltyStandings.wins s + Z.of_nat (length (filter (λ g, r g = 1) l))).
Proof.
  revert s. induction l as [|g l IH]; intros s.
  - destruct s; simpl. f_equal; lia.
  - cbn [foldl]. rewrite IH, applyRank_fields, filter_cons. simpl.
    unfold rankBonus. f_equal; repeat case_decide; simpl; lia.
Qed.

Lemma gamesOf_filter seasonId games t :
  filter (λ g, t ∈ Game.participatingTeamIds g)
         (filter (λ g, isSeasonGame seasonId g = true) games)
  = gamesOf seasonId games t.
Proof.
  unfold gamesOf. rewrite list_filter_filter.
  apply list_filter_iff. intros g. tauto.
Qed.

Lemma seasonStandingsMap_get seasonId games teams t :
  JsObj.get (seasonStandingsMap seasonId games teams) t =
    (λ s, foldl (λ s g, applyRank s (rankIn g t)) s (gamesOf seasonId games t))
      <$> JsObj.get (initialStandings teams) t.
Proof.
  unfold seasonStandingsMap. by rewrite get_foldl_creditGame, gamesOf_filter.
Qed.

(** Every entry of the standings is the blank record of a roster team, with
    one rank applied per eligible game the team took part in. *)
Lemma standings_entry seasonId games teams s :
  s ∈ calculateSeasonStandings seasonId games teams →
  ∃ name,
    s = foldl (λ acc g, applyRank acc (rankIn g (RoyaltyStandings.teamId s)))
              (RoyaltyStandings.mk (RoyaltyStandings.teamId s) name 0 0 0)
              (gamesOf seasonId games (RoyaltyStandings.teamId s)).
Proof.
  intros Hs. unfold calculateSeasonStandings in Hs. rewrite elem_of_sort in Hs.
  destruct (seasonStandingsMap_shape seasonId games teams) as (Hnd & Hk & Hkeys).
  apply list_elem_of_fmap in Hs as ([k s'] & -> & Hin). simpl.
  assert (RoyaltyStandings.teamId s' = k) as Hid.
  { unfold keyed in Hk. rewrite Forall_forall in Hk. apply (Hk _ Hin). }
  subst k. pose proof (JsObjFacts.elem_of_get_Some _ _ _ Hnd Hin) as Hget.
  assert (RoyaltyStandings.teamId s' ∈ Team.id <$> teams) as Hroster.
  { apply Hkeys. unfold JsObj.keys. apply list_elem_of_fmap.
    by exists (RoyaltyStandings.teamId s', s'). }
  destruct (initialStandings_fold teams []) as (_ & _ & _ & Hinit).
  destruct (Hinit _ Hroster) as [name Hname].
  rewrite seasonStandingsMap_get in Hget. unfold initialStandings in Hget.
  rewrite Hname in Hget. injection Hget as Hget.
  exists name. symmetry. exact Hget.
Qed.

(** X7. The season standings are ordered by descending points. *)
Theorem standings_sorted (seasonId : string) (games : list Game.t)
    (teams : list Team.t) :
  Sorted (λ a b, RoyaltyStandings.points b ≤ RoyaltyStandings.points a)
         (calculateSeasonStandings seasonId games teams).
Proof. apply sort_key_descending. Qed.

(** X8. In the standings a team has played as many games as there are
    eligible games of the season in which it took part, has as many wins as
    it reached rank 1 in them, and holds one point plus the rank bonus for
    each of them. *)
Theorem standings_totals (seasonId : string) (games : list Game.t)
    (teams : list Team.t) (s : RoyaltyStandings.t) :
  s ∈ calculateSeasonStandings seasonId games teams →
  let t := RoyaltyStandings.teamId s in
  let played := gamesOf seasonId games t in
  RoyaltyStandings.gamesPlayed s = Z.of_nat (length played)
  ∧ RoyaltyStandings.wins s =
      Z.of_nat (length (filter (λ g, rankIn g t = 1) played))
  ∧ RoyaltyStandings.points s =
      sumOver (λ g, 1 + rankBonus (rankIn g t)) played.
Proof.
  intros [name Hs]%standings_entry t played. subst t played.
  rewrite foldl_applyRank_fields in Hs. rewrite Hs at 1 3 5. simpl.
  split_and!; lia.
Qed.

Lemma standings_totals_sample :
  let s := RoyaltyStandings.mk "C" "C" 6 1 0 in
  RoyaltyStandings.gamesPlayed s = 1
  ∧ RoyaltyStandings.points s =
      sumOver (λ g, 1 + rankBonus (rankIn g "C")) [threeTeamGame].
Proof.
  destruct (standings_totals "s1" [threeTeamGame]
              [sampleTeam "A"; sampleTeam "B"; sampleTeam "C"]
              (RoyaltyStandings.mk "C" "C" 6 1 0)) as (Hg & _ & Hp).
  - replace (calculateSeasonStandings _ _ _)
      with [RoyaltyStandings.mk "A" "A" 11 1 1; RoyaltyStandings.mk "B" "B" 11 1 1;
            RoyaltyStandings.mk "C" "C" 6 1 0] by (by vm_compute).
    apply list_elem_of_further, list_elem_of_further, list_elem_of_here.
  - split; [exact Hg | exact Hp].
Defined.

Lemma rank_totals_bounds {A} (r : A → Z) (l : list A) :
  let n := Z.of_nat (length l) in
  let w := Z.of_nat (length (filter (λ g, r g = 1) l)) in
  let p := sumOver (λ g, 1 + rankBonus (r g)) l in
  0 ≤ w ≤ n ∧ n + 10 * w ≤ p ≤ 6 * n + 5 * w.
Proof.
  induction l as [|g l IH]; [simpl; lia|].
  rewrite filter_cons, sumOver_cons. unfold rankBonus at 1.
  cbn zeta in *. repeat case_decide; simpl length; lia.
Qed.

(** X9. Whatever the games, a standings entry has between 0 and
    [gamesPlayed] wins, and its points lie between one per game plus ten per
    win and six per game plus five per win. *)
Theorem standings_bounds (seasonId : string) (games : list Game.t)
    (teams : list Team.t) (s : RoyaltyStandings.t) :
  s ∈ calculateSeasonStandings seasonId games teams →
  0 ≤ RoyaltyStandings.wins s ≤ RoyaltyStandings.gamesPlayed s
  ∧ RoyaltyStandings.gamesPlayed s + 10 * RoyaltyStandings.wins s
    ≤ RoyaltyStandings.points s
    ≤ 6 * RoyaltyStandings.gamesPlayed s + 5 * RoyaltyStandings.wins s.
Proof.
  intros [name Hs]%standings_entry.
  rewrite foldl_applyRank_fields in Hs.
  pose proof (rank_totals_bounds
                (λ g, rankIn g (RoyaltyStandings.teamId s))
                (gamesOf seasonId games (RoyaltyStandings.teamId s))) as Hb.
  cbn zeta in Hb. rewrite Hs. simpl. lia.
Qed.

Lemma standings_bounds_sample :
  let s := RoyaltyStandings.mk "A" "A" 11 1 1 in
  0 ≤ RoyaltyStandings.wins s ≤ RoyaltyStandings.gamesPlayed s
  ∧ RoyaltyStandings.gamesPlayed s + 10 * RoyaltyStandings.wins s
    ≤ RoyaltyStandings.points s
    ≤ 6 * RoyaltyStandings.gamesPlayed s + 5 * RoyaltyStandings.wins s.
Proof.
  apply (standings_bounds "s1" [threeTeamGame]
           [sampleTeam "A"; sampleTeam "B"; sampleTeam "C"]).
  replace (calculateSeasonStandings _ _ _)
    with [RoyaltyStandings.mk "A" "A" 11 1 1; RoyaltyStandings.mk "B" "B" 11 1 1;
          RoyaltyStandings.mk "C" "C" 6 1 0] by (by vm_compute).
  apply list_elem_of_here.
Defined.

Lemma creditGame_no_participants standingsMap game :
  Game.participatingTeamIds game = [] → creditGame standingsMap game = standingsMap.
Proof.
  intros Hnone. unfold creditGame.
  assert (calculateGameScores game = []) as ->.
  { pose proof (calculateGameScores_keys_order game) as Hk.
    rewrite Hnone in Hk. unfold JsObj.keys in Hk.
    by destruct (calculateGameScores game). }
  done.
Qed.

(** X10. A game of another season, a game that is not archived, a game
    excluded from the royalty count and a game without participants leave the
    standings as they are, wherever they stand in the list of games. *)
Theorem standings_ignore_other_games (seasonId : string)
    (before after : list Game.t) (g : Game.t) (teams : list Team.t) :
  isSeasonGame seasonId g = false ∨ Game.participatingTeamIds g = [] →
  calculateSeasonStandings seasonId (before ++ g :: after) teams
  = calculateSeasonStandings seasonId (before ++ after) teams.
Proof.
  intros Hskip. unfold calculateSeasonStandings, seasonStandingsMap.
  do 2 f_equal. rewrite !filter_app, filter_cons.
  destruct (decide (isSeasonGame seasonId g = true)) as [Hel|Hel]; [|done].
  destruct Hskip as [Hno|Hempty]; [congruence|].
  rewrite !foldl_app. cbn [foldl]. by rewrite creditGame_no_participants.
Qed.

Lemma standings_ignore_other_games_sample :
  let running := sampleGame Regular Live None false (Stage.mk 1 0 0)
                    ["A"; "B"] [QuestionResult.mk 0 0 0 ["B"] 3] in
  calculateSeasonStandings "s1" [running; threeTeamGame]
    [sampleTeam "A"; sampleTeam "B"; sampleTeam "C"]
  = calculateSeasonStandings "s1" [threeTeamGame]
      [sampleTeam "A"; sampleTeam "B"; sampleTeam "C"].
Proof.
  apply (standings_ignore_other_games "s1" []). left. reflexivity.
Defined.

(** X11. The standings do not depend on the order in which the games are
    stored. *)
Theorem standings_ignore_game_order (seasonId : string)
    (games1 games2 : list Game.t) (teams : list Team.t) :
  games1 ≡ₚ games2 →
  calculateSeasonStandings seasonId games1 teams
  = calculateSeasonStandings seasonId games2 teams.
Proof.
  intros Hperm. unfold calculateSeasonStandings. do 2 f_equal.
  destruct (seasonStandingsMap_shape seasonId games1 teams) as (Hnd & _ & _).
  apply JsObj_ext; [done | |].
  - unfold seasonStandingsMap. by rewrite !keys_foldl_creditGame.
  - intros t. rewrite !seasonStandingsMap_get.
    destruct (JsObj.get (initialStandings teams) t) as [s|]; [|done].
    simpl. f_equal. rewrite !foldl_applyRank_fields.
    assert (gamesOf seasonId games1 t ≡ₚ gamesOf seasonId games2 t) as Hg.
    { unfold gamesOf. by rewrite Hperm. }
    by rewrite (sumOver_Permutation _ _ _ Hg), Hg.
Qed.

Lemma standings_ignore_game_order_sample :
  calculateSeasonStandings "s1" [fiveTeamGame; threeTeamGame] [sampleTeam "A"]
  = calculateSeasonStandings "s1" [threeTeamGame; fiveTeamGame] [sampleTeam "A"].
Proof. apply standings_ignore_game_order, Permutation_swap. Defined.

(** ** Team history, continued *)

Lemma fmap_game_historyEntry teamId hosts (l : list Game.t) :
  HistoryEntry.game <$> (historyEntry teamId hosts <$> l) = l.
Proof. induction l as [|g l IH]; [done|]. rewrite !fmap_cons. by f_equal. Qed.

(** X12. The history of a team lists its archived games, each once and no
    other game, latest first. *)
Theorem history_sorted_complete (getTime : string → Z) (teamId : string)
    (games : list Game.t) (hosts : option (list Host.t)) :
  let history := getTeamHistory getTime teamId games hosts in
  Sorted (λ a b, getTime (Game.date (HistoryEntry.game b))
                 ≤ getTime (Game.date (HistoryEntry.game a))) history
  ∧ HistoryEntry.game <$> history
    ≡ₚ filter (λ g, Game.status g = Archived
                    ∧ teamId ∈ Game.participatingTeamIds g) games.
Proof.
  intros history. subst history. unfold getTeamHistory. split.
  - apply (sort_key_descending
             (λ h, getTime (Game.date (HistoryEntry.game h)))).
  - rewrite sort_Permutation, fmap_game_historyEntry.
    erewrite list_filter_iff; [done|].
    intros g. unfold includes. by rewrite bool_decide_eq_true.
Qed.

Lemma concat_nonempty sep (names : list string) :
  names ≠ [] → (∀ n, n ∈ names → n ≠ "") → String.concat sep names ≠ "".
Proof.
  destruct names as [|n names]; [done|]. intros _ Hne.
  assert (n ≠ "") as Hn by (apply Hne; left).
  simpl. destruct names; [done|]. by destruct n.
Qed.

Lemma hostNameOf_nonempty hosts hid n : hostNameOf hosts hid = Some n → n ≠ "".
Proof.
  unfold hostNameOf. destruct (list_find _ hosts) as [[i h]|]; [|done].
  case_decide; [done|]. by intros [= <-].
Qed.

(** X13. The host name of a history entry is never empty: it is "Unknown"
    when no host list is given or when none of the game's host identifiers
    resolves to a named host, and the resolved names otherwise. *)
Theorem history_hostName (teamId : string) (hosts : option (list Host.t))
    (game : Game.t) :
  let h := historyEntry teamId hosts game in
  HistoryEntry.hostName h ≠ ""
  ∧ (hosts = None → HistoryEntry.hostName h = "Unknown")
  ∧ (∀ hs, hosts = Some hs →
           omap (hostNameOf hs) (Game.hostIds game) = [] →
           HistoryEntry.hostName h = "Unknown")
  ∧ (∀ hs, hosts = Some hs →
           omap (hostNameOf hs) (Game.hostIds game) ≠ [] →
           HistoryEntry.hostName h =
             String.concat ", " (omap (hostNameOf hs) (Game.hostIds game))).
Proof.
  simpl. split_and!.
  - destruct hosts as [hs|]; [|done].
    case_bool_decide; [|done]. case_bool_decide; [|done].
    apply concat_nonempty.
    + intros Hnil. rewrite Hnil in *. simpl in *. lia.
    + intros n (hid & _ & Hn)%list_elem_of_omap. by eapply hostNameOf_nonempty.
  - by intros ->.
  - intros hs -> Hnil. rewrite Hnil. simpl. by case_bool_decide.
  - intros hs -> Hne.
    destruct (omap (hostNameOf hs) (Game.hostIds game)) as [|n names] eqn:Hnames;
      [done|].
    assert (Game.hostIds game ≠ []) as Hids.
    { intros Hnil. by rewrite Hnil in Hnames. }
    rewrite bool_decide_eq_true_2.
    + by rewrite bool_decide_eq_true_2 by (simpl; lia).
    + destruct (Game.hostIds game); [done | simpl; lia].
Qed.

Lemma history_hostName_sample :
  HistoryEntry.hostName
    (historyEntry "A" (Some [Host.mk "h1" "Ana" None None None]) threeTeamGame)
  = "Ana".
Proof.
  etrans; [by apply (proj2 (proj2 (proj2 (history_hostName "A" _ threeTeamGame))))|].
  reflexivity.
Defined.

(** ** The stage counter, continued *)

Lemma nextStage_onGrid stage : onGrid stage → onGrid (nextStage stage).
Proof.
  unfold onGrid, nextStage, CATEGORIES_PER_SET, QUESTIONS_PER_CATEGORY.
  intros (Hs & Hc & Hq).
  destruct (Z.leb_spec 8 (Stage.question stage + 1)),
    (Z.leb_spec 3 (Stage.category stage + 1)); simpl; lia.
Qed.

Lemma previousStage_onGrid stage :
  onGrid stage → 0 ≤ Stage.set (previousStage stage) →
  onGrid (previousStage stage).
Proof.
  unfold onGrid, previousStage, CATEGORIES_PER_SET, QUESTIONS_PER_CATEGORY.
  intros (Hs & Hc & Hq).
  destruct (Z.ltb_spec (Stage.question stage - 1) 0),
    (Z.ltb_spec (Stage.category stage - 1) 0); simpl; lia.
Qed.

Lemma previousStage_nextStage stage :
  onGrid stage → previousStage (nextStage stage) = stage.
Proof.
  destruct stage as [s c q].
  unfold onGrid, previousStage, nextStage, CATEGORIES_PER_SET,
    QUESTIONS_PER_CATEGORY. simpl. intros (Hs & Hc & Hq).
  destruct (Z.leb_spec 8 (q + 1)), (Z.leb_spec 3 (c + 1)); simpl;
    repeat match goal with
           | |- context [?a <? ?b] => destruct (Z.ltb_spec a b); simpl
           end; f_equal; lia.
Qed.

Lemma handlePrevious_stage st :
  Game.currentStage (LiveGame.game (handlePrevious st)) =
    if Stage.set (previousStage (Game.currentStage (LiveGame.game st))) <? 0
    then Game.currentStage (LiveGame.game st)
    else previousStage (Game.currentStage (LiveGame.game st)).
Proof.
  unfold handlePrevious. destruct (_ <? 0); [done|].
  by rewrite syncSelection_game.
Qed.

(** X14. The stage never leaves the grid: from a stage with a non-negative
    set, a category in 0..2 and a question in 0..7, every sequence of scorer
    actions leads to such a stage again. *)
Theorem stage_stays_on_grid (st : LiveGame.t) (actions : list Action) :
  onGrid (Game.currentStage (LiveGame.game st)) →
  onGrid (Game.currentStage (LiveGame.game (run st actions))).
Proof.
  unfold run. revert st. induction actions as [|a actions IH]; intros st Hgrid;
    [done|].
  cbn [foldl]. apply IH. destruct a as [teamId|p| |]; simpl; try done.
  - rewrite handleNext_game. by apply nextStage_onGrid.
  - rewrite handlePrevious_stage.
    destruct (Z.ltb_spec
                (Stage.set (previousStage (Game.currentStage (LiveGame.game st))))
                0); [done|].
    by apply previousStage_onGrid.
Qed.

Lemma stage_stays_on_grid_sample :
  let start := scorerAt (sampleGame Regular Live None false (Stage.mk 0 2 7)
                                    ["A"] []) in
  onGrid (Game.currentStage (LiveGame.game (run start [Previous; Next; Next; Next]))).
Proof.
  apply stage_stays_on_grid. unfold onGrid. by vm_compute.
Defined.

Lemma list_find_recordResult results stage result :
  atStage stage result →
  ∃ i, list_find (atStage stage) (recordResult results stage result)
       = Some (i, result).
Proof.
  intros Hat. unfold recordResult.
  destruct (list_find (atStage stage) results) as [[j y]|] eqn:Hfind.
  - apply list_find_Some in Hfind as (Hj & Hy & Hbefore).
    exists j. apply list_find_Some. split_and!; [|done|].
    + apply list_lookup_insert_eq. by eapply lookup_lt_Some.
    + intros k z Hk Hlt. rewrite list_lookup_insert_ne in Hk by lia.
      by eapply Hbefore.
  - apply list_find_None in Hfind. rewrite Forall_forall in Hfind.
    exists (length results). apply list_find_Some. split_and!; [|done|].
    + by rewrite lookup_app_r, Nat.sub_diag.
    + intros k z Hk Hlt. rewrite lookup_app_l in Hk by done.
      apply Hfind. by eapply list_elem_of_lookup_2.
Qed.

(** X15. Stepping back after recording a question returns to that question
    and shows what was recorded: the stage, the selected teams and the point
    value are those of the recording, and the ledger is not touched by the
    step back. *)
Theorem previous_after_next (st : LiveGame.t) :
  onGrid (Game.currentStage (LiveGame.game st)) →
  let st' := handlePrevious (handleNext st) in
  Game.currentStage (LiveGame.game st') = Game.currentStage (LiveGame.game st)
  ∧ LiveGame.currentSelection st' = LiveGame.currentSelection st
  ∧ LiveGame.manualPoints st' = Some (currentPoints st)
  ∧ Game.results (LiveGame.game st') = Game.results (LiveGame.game (handleNext st)).
Proof.
  intros Hgrid st'. subst st'. unfold handlePrevious.
  rewrite handleNext_game. cbn [Game.currentStage Game.withRecorded].
  rewrite previousStage_nextStage by done.
  destruct Hgrid as (Hs & _). apply Z.ltb_ge in Hs as ->.
  unfold syncSelection. cbn [Game.currentStage Game.results Game.withStage
                               Game.withRecorded].
  destruct (list_find_recordResult (Game.results (LiveGame.game st))
              (Game.currentStage (LiveGame.game st)) (currentResult st))
    as [i ->]; [by apply atStage_key|].
  done.
Qed.

Lemma previous_after_next_sample :
  let st := toggleTeam (setManualPoints
              (scorerAt (sampleGame Regular Live None false (Stage.mk 1 2 7)
                                    ["A"; "B"] [])) 4) "B" in
  let st' := handlePrevious (handleNext st) in
  Game.currentStage (LiveGame.game st') = Stage.mk 1 2 7
  ∧ LiveGame.currentSelection st' = ["B"]
  ∧ LiveGame.manualPoints st' = Some 4.
Proof.
  intros st st'. subst st'.
  destruct (previous_after_next st) as (H1 & H2 & H3 & _).
  - unfold onGrid. by vm_compute.
  - split_and!; [exact H1 | exact H2 | exact H3].
Defined.

(** X16. Recording can end the game only at a set boundary: when [handleNext]
    takes a game that is not over to one that is, the new stage is the first
    question of the next set, and "Back to Scoring" then returns to the
    question just recorded, with the game no longer over and the ledger
    intact. *)
Theorem game_over_at_set_boundary (st : LiveGame.t) :
  onGrid (Game.currentStage (LiveGame.game st)) →
  isGameOver (LiveGame.game st) = false →
  isGameOver (LiveGame.game (handleNext st)) = true →
  let over := LiveGame.game (handleNext st) in
  Game.currentStage over =
    Stage.mk (Stage.set (Game.currentStage (LiveGame.game st)) + 1) 0 0
  ∧ Game.currentStage (backToScoring over) = Game.currentStage (LiveGame.game st)
  ∧ isGameOver (backToScoring over) = false
  ∧ Game.results (backToScoring over) = Game.results over.
Proof.
  intros (Hs & Hc & Hq) Hnot Hover over. subst over.
  rewrite handleNext_game in *.
  unfold isGameOver, backToScoring in *.
  cbn [Game.currentStage Game.hasBonusRound Game.withRecorded Game.withStage
       Game.results] in *.
  destruct (Game.currentStage (LiveGame.game st)) as [s c q] eqn:Hstage.
  unfold nextStage, CATEGORIES_PER_SET, QUESTIONS_PER_CATEGORY, SETS_PER_GAME in *.
  simpl in *.
  destruct (Game.hasBonusRound (LiveGame.game st)); simpl in *;
    destruct (Z.leb_spec 8 (q + 1)), (Z.leb_spec 3 (c + 1)); simpl in *;
    repeat match goal with
           | H : context [?a <=? ?b] |- _ => destruct (Z.leb_spec a b); simpl in H
           | H : context [?a <? ?b] |- _ => destruct (Z.ltb_spec a b); simpl in H
           end; try done; try lia.
  all: split_and!; try done; try (f_equal; lia).
  all: repeat match goal with
         | |- context [?a <=? ?b] => destruct (Z.leb_spec a b); simpl
         | |- context [?a <? ?b] => destruct (Z.ltb_spec a b); simpl
         end; try done; lia.
Qed.

Lemma game_over_at_set_boundary_sample :
  let st := scorerAt (sampleGame Regular Live None false (Stage.mk 3 2 7) ["A"] []) in
  Game.currentStage (backToScoring (LiveGame.game (handleNext st))) = Stage.mk 3 2 7.
Proof.
  intros st.
  destruct (game_over_at_set_boundary st) as (_ & H & _).
  - unfold onGrid. by vm_compute.
  - reflexivity.
  - reflexivity.
  - exact H.
Defined.

(** ** The selection and the ledger, continued *)

Lemma uniqueIds_spec ids : NoDup (uniqueIds ids) ∧ ∀ x, x ∈ uniqueIds ids ↔ x ∈ ids.
Proof.
  unfold uniqueIds.
  enough (∀ acc : list string, NoDup acc →
            let r := foldl (λ acc x, if decide (x ∈ acc) then acc else acc ++ [x])
                           acc ids in
            NoDup r ∧ ∀ x, x ∈ r ↔ x ∈ acc ∨ x ∈ ids) as Hgen.
  { destruct (Hgen [] (NoDup_nil_2)) as [Hnd Hin]. split; [done|].
    intros x. rewrite Hin. split; [intros [[]%elem_of_nil|]; done | by right]. }
  induction ids as [|y ids IH]; intros acc Hnd; cbn [foldl].
  - split; [done|]. intros x. split; [by left | intros [|[]%elem_of_nil]; done].
  - destruct (decide (y ∈ acc)) as [Hin|Hin].
    + destruct (IH acc Hnd) as [Hnd' Hin']. split; [done|].
      intros x. rewrite Hin', elem_of_cons.
      split; [tauto | intros [?|[->|?]]; tauto].
    + assert (NoDup (acc ++ [y])) as Hnd2.
      { apply NoDup_app. split_and!; [done | | apply NoDup_singleton].
        by intros x Hx ->%list_elem_of_singleton. }
      destruct (IH _ Hnd2) as [Hnd' Hin']. split; [done|].
      intros x. rewrite Hin', elem_of_app, list_elem_of_singleton, elem_of_cons.
      tauto.
Qed.

Lemma toggle_NoDup (ids : list string) (t : string) :
  NoDup ids →
  NoDup (if includes ids t then filter (λ x, x ≠ t) ids else ids ++ [t]).
Proof.
  intros Hnd. unfold includes. case_bool_decide as Hin.
  - by apply NoDup_filter.
  - apply NoDup_app. split_and!; [done | | apply NoDup_singleton].
    by intros x Hx ->%list_elem_of_singleton.
Qed.

Lemma toggle_elem_of (ids : list string) (t t' : string) :
  t' ∈ (if includes ids t then filter (λ x, x ≠ t) ids else ids ++ [t])
  ↔ if decide (t' = t) then t ∉ ids else t' ∈ ids.
Proof.
  unfold includes. case_bool_decide as Hin.
  - rewrite list_elem_of_filter. case_decide as Heq; [subst|]; tauto.
  - rewrite elem_of_app, list_elem_of_singleton.
    case_decide as Heq; [subst|]; tauto.
Qed.

Lemma creditsOnce_syncSelection game viewMode :
  Forall (λ r, NoDup (QuestionResult.correctTeamIds r)) (Game.results game) →
  creditsOnce (syncSelection game viewMode).
Proof.
  intros Hall. unfold creditsOnce, syncSelection.
  destruct (list_find _ (Game.results game)) as [[i r]|] eqn:Hfind; simpl.
  - split; [|done]. apply list_find_Some in Hfind as (Hi & _ & _).
    rewrite Forall_forall in Hall. apply Hall. by eapply list_elem_of_lookup_2.
  - split; [apply NoDup_nil_2 | done].
Qed.

Lemma creditsOnce_act st a : creditsOnce st → creditsOnce (act st a).
Proof.
  intros [Hsel Hall]. destruct a as [teamId|p| |]; simpl.
  - split; [|done]. by apply toggle_NoDup.
  - done.
  - unfold handleNext. apply creditsOnce_syncSelection.
    cbn [Game.results Game.withRecorded]. unfold recordResult.
    destruct (list_find _ _) as [[i r]|].
    + rewrite Forall_forall in *. intros x Hx.
      apply list_elem_of_lookup in Hx as [j Hj].
      destruct (decide (i = j)) as [->|Hne].
      * apply list_lookup_insert_Some in Hj as [(_ & <- & _)|[? _]]; done.
      * rewrite list_lookup_insert_ne in Hj by done.
        apply Hall. by eapply list_elem_of_lookup_2.
    + apply Forall_app. split; [done|]. by repeat constructor.
  - unfold handlePrevious. destruct (_ <? 0); [done|].
    by apply creditsOnce_syncSelection.
Qed.

(** X17. The scorer never credits a team twice for one question: if no ledger
    entry and no pending selection lists a team twice (as in a new game),
    this stays so under every sequence of scorer actions, and "Everyone
    Correct" and "No One" keep it so too. *)
Theorem ledger_credits_once (teams : list Team.t) (st : LiveGame.t)
    (actions : list Action) :
  creditsOnce st →
  creditsOnce (run st actions)
  ∧ creditsOnce (selectAll teams st)
  ∧ creditsOnce (selectNone st).
Proof.
  intros Hst. split_and!.
  - unfold run. revert st Hst.
    induction actions as [|a actions IH]; intros st Hst; [done|].
    cbn [foldl]. by apply IH, creditsOnce_act.
  - destruct Hst as [_ Hall]. split; [|done]. apply uniqueIds_spec.
  - destruct Hst as [_ Hall]. split; [apply NoDup_nil_2 | done].
Qed.

Lemma ledger_credits_once_sample :
  let start := scorerAt (sampleGame Regular Live None false (Stage.mk 0 0 0)
                                    ["A"; "B"] []) in
  creditsOnce (run start [ToggleTeam "A"; ToggleTeam "B"; ToggleTeam "A"; Next;
                          Previous; ToggleTeam "A"; Next]).
Proof.
  intros start.
  refine (proj1 (ledger_credits_once [] start _ _)).
  split; [apply NoDup_nil_2 | apply Forall_nil_2].
Defined.

(** X18. Toggling a team flips the membership of that team in the selection
    and of no other; the game and the point value are not touched. *)
Theorem toggleTeam_flips (st : LiveGame.t) (t t' : string) :
  (t' ∈ LiveGame.currentSelection (toggleTeam st t)
   ↔ if decide (t' = t) then t ∉ LiveGame.currentSelection st
     else t' ∈ LiveGame.currentSelection st)
  ∧ (t' ∈ LiveGame.currentSelection (toggleTeam (toggleTeam st t) t)
     ↔ t' ∈ LiveGame.currentSelection st)
  ∧ LiveGame.game (toggleTeam st t) = LiveGame.game st
  ∧ currentPoints (toggleTeam st t) = currentPoints st.
Proof.
  split_and!; try done.
  - apply toggle_elem_of.
  - unfold toggleTeam at 1. cbn [LiveGame.currentSelection].
    rewrite toggle_elem_of. unfold toggleTeam. cbn [LiveGame.currentSelection].
    case_decide as Heq; [subst|].
    + rewrite toggle_elem_of, decide_True by done.
      split; [apply dec_stable | by intros ? ?].
    + by rewrite toggle_elem_of, decide_False.
Qed.

(** ** Summaries and the scoreboard, continued *)

Lemma setIndices_cases game :
  setIndices game = if Game.hasBonusRound game then [0; 1; 2; 3; 4] else [0; 1; 2; 3].
Proof. unfold setIndices. by destruct (Game.hasBonusRound game). Qed.

(** X19. Adding the bonus round to a game without one moves no stage and no
    score; the game is then over only once the set index has passed
    [SETS_PER_GAME], and the summary row of a team gains one column, for the
    bonus set, after its unchanged columns. *)
Theorem addBonusRound_effect (game : Game.t) (team : Team.t) :
  Game.hasBonusRound game = false →
  let game' := addBonusRound game in
  (isGameOver game' = true ↔ SETS_PER_GAME < Stage.set (Game.currentStage game))
  ∧ Game.currentStage game' = Game.currentStage game
  ∧ calculateGameScores game' = calculateGameScores game
  ∧ SummaryRow.setScores (summaryRow game' team) =
      SummaryRow.setScores (summaryRow game team)
      ++ [setScoreOf game (Team.id team) SETS_PER_GAME].
Proof.
  intros Hno game'. subst game'. split_and!; try done.
  - unfold isGameOver, addBonusRound. simpl. apply Z.ltb_lt.
  - rewrite !summaryRow_fields. cbn [SummaryRow.setScores].
    rewrite !setIndices_cases, Hno. done.
Qed.

Lemma addBonusRound_effect_sample :
  let game := sampleGame Regular Live None false (Stage.mk 4 0 0) ["A"]
                [QuestionResult.mk 3 2 7 ["A"] 2] in
  isGameOver game = true
  ∧ isGameOver (addBonusRound game) = false
  ∧ SummaryRow.setScores (summaryRow (addBonusRound game) (sampleTeam "A"))
    = [0; 0; 0; 2; 0].
Proof.
  intros game. split; [reflexivity|]. split; [reflexivity|].
  etrans; [by apply (addBonusRound_effect game (sampleTeam "A"))|].
  by vm_compute.
Defined.

(** X20. The scoreboard lists exactly the roster teams that participate, in
    descending order of score. *)
Theorem rankedTeams_sorted (teams : list Team.t) (game : Game.t) :
  let score t := orElse (JsObj.get (calculateGameScores game) (Team.id t)) 0 in
  rankedTeams teams game
    ≡ₚ filter (λ t, Team.id t ∈ Game.participatingTeamIds game) teams
  ∧ Sorted (λ a b, score b ≤ score a) (rankedTeams teams game)
  ∧ (∀ t, t ∈ rankedTeams teams game → score t = gameTotal game (Team.id t)).
Proof.
  intros score. subst score. unfold rankedTeams. split_and!.
  - rewrite sort_Permutation. unfold gameTeams.
    erewrite list_filter_iff; [done|].
    intros t. unfold includes. by rewrite bool_decide_eq_true.
  - apply (sort_key_descending
             (λ t, orElse (JsObj.get (calculateGameScores game) (Team.id t)) 0)).
  - intros t. rewrite elem_of_sort. unfold gameTeams.
    intros [Hinc _]%list_elem_of_filter.
    unfold includes in Hinc. apply bool_decide_eq_true in Hinc.
    apply orElse_0. by rewrite calculateGameScores_get, decide_True.
Qed.

Lemma rankedTeams_sorted_sample :
  let teams := [sampleTeam "C"; sampleTeam "Z"; sampleTeam "A"] in
  rankedTeams teams threeTeamGame = [sampleTeam "A"; sampleTeam "C"]
  ∧ orElse (JsObj.get (calculateGameScores threeTeamGame) "C") 0
    = gameTotal threeTeamGame "C".
Proof.
  intros teams. split; [reflexivity|].
  apply (proj2 (proj2 (rankedTeams_sorted teams threeTeamGame)) (sampleTeam "C")).
  replace (rankedTeams teams threeTeamGame)
    with [sampleTeam "A"; sampleTeam "C"] by reflexivity.
  apply list_elem_of_further, list_elem_of_here.
Defined.

Lemma setSummaryRow_fields game team :
  setSummaryRow game team =
    SummaryRow.mk team (setScoreOf game (Team.id team) <$> setsToShow game)
      (sumOver (setScoreOf game (Team.id team)) (setsToShow game)).
Proof. unfold setSummaryRow. by rewrite summaryRow_fold. Qed.

(** X21. The set summary shown at a set boundary has one column per finished
    set; its columns are the first columns of the final summary, and its
    total is their sum.  Before the first set is finished it has no column
    and total 0. *)
Theorem setSummary_prefix (game : Game.t) (team : Team.t) :
  let set := Stage.set (Game.currentStage game) in
  let row := setSummaryRow game team in
  set ≤ SETS_PER_GAME + (if Game.hasBonusRound game then 1 else 0) →
  SummaryRow.setScores row =
    take (Z.to_nat set) (SummaryRow.setScores (summaryRow game team))
  ∧ SummaryRow.total row = sumOver (λ sScore, sScore) (SummaryRow.setScores row)
  ∧ (set ≤ 0 → SummaryRow.setScores row = [] ∧ SummaryRow.total row = 0).
Proof.
  intros set row Hset. subst row.
  rewrite setSummaryRow_fields, summaryRow_fields. cbn [SummaryRow.setScores SummaryRow.total].
  unfold setsToShow, setIndices. fold set. split_and!.
  - rewrite <-!fmap_take, take_seq. do 3 f_equal.
    replace (set - 1 + 1) with set by lia. lia.
  - generalize (Z.of_nat <$> seq 0 (Z.to_nat (set - 1 + 1))). intros l.
    induction l as [|x l IH]; [done|].
    by rewrite fmap_cons, !sumOver_cons, IH.
  - intros Hneg. replace (Z.to_nat (set - 1 + 1)) with 0%nat by lia. done.
Qed.

Lemma setSummary_prefix_sample :
  let game := sampleGame Regular Live None false (Stage.mk 2 0 0) ["A"]
                [QuestionResult.mk 0 0 0 ["A"] 1; QuestionResult.mk 1 0 0 ["A"] 2;
                 QuestionResult.mk 2 0 0 ["A"] 4] in
  SummaryRow.setScores (setSummaryRow game (sampleTeam "A")) = [1; 2].
Proof.
  intros game.
  destruct (setSummary_prefix game (sampleTeam "A")) as (Hrow & _).
  - vm_compute. discriminate.
  - etrans; [exact Hrow | reflexivity].
Defined.

(** ** The list of games ([App] component) *)

Lemma findGame_cons g games k :
  findGame (g :: games) k = if decide (Game.id g = k) then Some g else findGame games k.
Proof.
  unfold findGame. cbn [list_find]. case_decide; [done|].
  by destruct (list_find _ games) as [[i x]|].
Qed.

Lemma findGame_fmap (f : Game.t → Game.t) games k :
  (∀ g, Game.id (f g) = Game.id g) →
  findGame (f <$> games) k = f <$> findGame games k.
Proof.
  intros Hid. induction games as [|g games IH]; [done|].
  rewrite fmap_cons, !findGame_cons, Hid, IH. by case_decide.
Qed.

Lemma findGame_Some_id games k g : findGame games k = Some g → Game.id g = k.
Proof.
  unfold findGame. destruct (list_find _ games) as [[i x]|] eqn:Hfind; [|done].
  apply list_find_Some in Hfind as (_ & Hid & _). by intros [= <-].
Qed.

(** X22. Passing an updated game to [updateActiveGame] and looking it up by
    its identifier gives the updated game back, provided a game with that
    identifier was in the list; the lookup of every other identifier, the
    length and the order of identifiers stay the same, and a game that is not
    in the list is not added. *)
Theorem updateActiveGame_lookup (games : list Game.t) (updated : Game.t)
    (k : string) :
  findGame (updateActiveGame games updated) k =
    (if decide (k = Game.id updated)
     then (λ _, updated) <$> findGame games k
     else findGame games k)
  ∧ Game.id <$> updateActiveGame games updated = Game.id <$> games
  ∧ (findGame games (Game.id updated) = None →
     updateActiveGame games updated = games).
Proof.
  unfold updateActiveGame. split_and!.
  - induction games as [|g games IH]; [by case_decide|].
    rewrite fmap_cons, !findGame_cons, IH.
    repeat case_decide; simplify_eq; try done; congruence.
  - induction games as [|g games IH]; [done|].
    rewrite !fmap_cons, IH. case_decide; f_equal; congruence.
  - induction games as [|g games IH]; [done|].
    rewrite findGame_cons, fmap_cons. case_decide; [done|].
    intros Hnone. by rewrite IH.
Qed.

Lemma updateActiveGame_lookup_sample :
  let games := [fiveTeamGame] in
  findGame games (Game.id threeTeamGame) ≠ None
  ∧ findGame (updateActiveGame games threeTeamGame) "g1" = Some threeTeamGame.
Proof.
  split; [done|].
  etrans; [apply (proj1 (updateActiveGame_lookup [fiveTeamGame] threeTeamGame "g1"))|].
  reflexivity.
Defined.

(** X23. Starting a game that is not in the list does nothing.  Starting a
    listed game makes it Live and leaves every game with another identifier
    as it is; a game started for the first time begins with an empty roster
    and hence an empty score mapping, while a game started again keeps its
    roster and its scores. *)
Theorem handleStartGame_effect (games : list Game.t) (gameId : string) :
  (findGame games gameId = None → handleStartGame games gameId = None)
  ∧ (∀ game, findGame games gameId = Some game →
       ∃ games' started,
         handleStartGame games gameId = Some games'
         ∧ findGame games' gameId = Some started
         ∧ Game.status started = Live
         ∧ Game.results started = Game.results game
         ∧ (Game.status game = Upcoming →
            Game.participatingTeamIds started = []
            ∧ calculateGameScores started = [])
         ∧ (Game.status game ≠ Upcoming →
            Game.participatingTeamIds started = Game.participatingTeamIds game
            ∧ calculateGameScores started = calculateGameScores game)
         ∧ (∀ k, k ≠ gameId → findGame games' k = findGame games k)).
Proof.
  split.
  - unfold findGame, handleStartGame.
    by destruct (list_find _ games) as [[i g]|].
  - intros game Hfind. unfold handleStartGame.
    assert (list_find (λ g, Game.id g = gameId) games ≠ None) as Hsome.
    { unfold findGame in Hfind. by destruct (list_find _ games). }
    destruct (list_find _ games) as [[i g]|] eqn:Hlf; [|done].
    assert (g = game) as ->.
    { unfold findGame in Hfind. rewrite Hlf in Hfind. by injection Hfind. }
    pose proof (findGame_Some_id _ _ _ Hfind) as Hid.
    set (participating := if decide (Game.status game = Upcoming) then []
                          else Game.participatingTeamIds game).
    set (f := λ g, if decide (Game.id g = gameId)
                   then withLive g participating else g).
    assert (∀ g, Game.id (f g) = Game.id g) as Hf.
    { intros g. unfold f. by case_decide. }
    exists (f <$> games), (withLive game participating).
    split_and!; try done.
    + rewrite findGame_fmap, Hfind by done. simpl. unfold f.
      by rewrite decide_True.
    + intros Hup. unfold participating. rewrite decide_True by done.
      split; [done|].
      pose proof (calculateGameScores_keys_order (withLive game [])) as Hk.
      unfold JsObj.keys in Hk. simpl in Hk.
      by destruct (calculateGameScores (withLive game [])).
    + intros Hup. unfold participating. by rewrite decide_False.
    + intros k Hne. rewrite findGame_fmap by done.
      destruct (findGame games k) as [g|] eqn:Hg; [|done].
      simpl. unfold f. rewrite decide_False; [done|].
      apply findGame_Some_id in Hg. congruence.
Qed.

Lemma handleStartGame_effect_sample :
  let upcoming := sampleGame Regular Upcoming None false (Stage.mk 0 0 0)
                    ["A"; "B"] [] in
  findGame [upcoming] "g1" = Some upcoming
  ∧ handleStartGame [upcoming] "g1"
    = Some [sampleGame Regular Live None false (Stage.mk 0 0 0) [] []].
Proof.
  intros upcoming. split; [reflexivity|].
  destruct (proj2 (handleStartGame_effect [upcoming] "g1") upcoming)
    as (games' & started & Hstart & _); [reflexivity|].
  reflexivity.
Defined.

(** ** Archiving a game *)

Lemma orElse_nonzero (x : option Z) d : d ≠ 0 → orElse x d ≠ 0.
Proof. intros Hd. unfold orElse. destruct x as [v|]; [|done]. by case_decide. Qed.

Lemma elem_of_getTeamHistory getTime teamId games hosts game :
  game ∈ games → Game.status game = Archived →
  teamId ∈ Game.participatingTeamIds game →
  historyEntry teamId hosts game ∈ getTeamHistory getTime teamId games hosts.
Proof.
  intros Hin Hst Hteam. unfold getTeamHistory.
  rewrite elem_of_sort. apply list_elem_of_fmap. exists game. split; [done|].
  apply list_elem_of_filter. split; [|done]. split; [done|].
  unfold includes. by apply bool_decide_eq_true.
Qed.

(** X24. Finalising a game, once confirmed, archives it without touching
    stage, ledger or scores, and attaches one feedback entry per participating
    roster team: its rating is the rating entered for the team, or 10 when
    none or 0 was entered, and its remarks and memorable category are those
    entered, if any.  The archived game then appears in the history of each
    of its participating teams and is eligible for its season by its
    [countInRoyalty] flag or, when there is none, by being a Regular game.
    Declining the confirmation leaves the game as it is. *)
Theorem finalizeGame_effect (teams : list Team.t)
    (feedbackData : list (string * GameFeedback.t)) (game : Game.t) :
  let archived := finalizeGame true teams feedbackData game in
  finalizeGame false teams feedbackData game = game
  ∧ Game.status archived = Archived
  ∧ Game.results archived = Game.results game
  ∧ calculateGameScores archived = calculateGameScores game
  ∧ (∃ allFeedback,
       Game.feedback archived = Some allFeedback
       ∧ GameFeedback.teamId <$> allFeedback
         ≡ₚ Team.id <$> filter (λ t, Team.id t ∈ Game.participatingTeamIds game)
                               teams
       ∧ Forall (λ f, GameFeedback.rating f ≠ 0) allFeedback
       ∧ Forall (λ f,
                   match JsObj.get feedbackData (GameFeedback.teamId f) with
                   | Some entry =>
                       GameFeedback.rating f =
                         (if decide (GameFeedback.rating entry = 0) then 10
                          else GameFeedback.rating entry)
                       ∧ GameFeedback.remarks f = GameFeedback.remarks entry
                       ∧ GameFeedback.memorableCategoryKey f =
                           GameFeedback.memorableCategoryKey entry
                   | None =>
                       GameFeedback.rating f = 10
                       ∧ GameFeedback.remarks f = None
                       ∧ GameFeedback.memorableCategoryKey f = None
                   end) allFeedback)
  ∧ isSeasonGame (Game.seasonId game) archived =
      match Game.countInRoyalty game with
      | Some flag => flag
      | None => bool_decide (Game.type game = Regular)
      end
  ∧ (∀ getTime hosts games t,
       archived ∈ games → t ∈ Game.participatingTeamIds game →
       archived ∈ HistoryEntry.game <$> getTeamHistory getTime t games hosts)
  ∧ (let live := sampleGame Regular Live None false (Stage.mk 4 0 0)
                   ["A"; "B"; "C"]
                   [QuestionResult.mk 0 0 0 ["A"; "B"] 2;
                    QuestionResult.mk 0 0 1 ["A"] 1] in
     let entered := [("A", GameFeedback.mk "A" 7 (Some "fun") None);
                     ("C", GameFeedback.mk "C" 0 None (Some "1-2"))] in
     Game.feedback
       (finalizeGame true [sampleTeam "A"; sampleTeam "B"; sampleTeam "C"]
                     entered live)
     = Some [GameFeedback.mk "A" 7 (Some "fun") None;
             GameFeedback.mk "B" 10 None None;
             GameFeedback.mk "C" 10 None (Some "1-2")]).
Proof.
  intros archived. subst archived. split_and!; try done.
  - eexists. split; [done|]. split_and!.
    + rewrite <-list_fmap_compose. simpl.
      change (GameFeedback.teamId ∘ _) with Team.id.
      unfold rankedTeams, gameTeams. rewrite sort_Permutation.
      erewrite list_filter_iff; [done|].
      intros t. unfold includes. by rewrite bool_decide_eq_true.
    + apply Forall_fmap, Forall_forall. intros t _. simpl.
      by apply orElse_nonzero.
    + apply Forall_fmap, Forall_forall. intros t _. simpl.
      by destruct (JsObj.get feedbackData (Team.id t)).
  - unfold isSeasonGame. cbn [finalizeGame withArchived Game.seasonId Game.status
                               Game.countInRoyalty Game.type].
    by rewrite !bool_decide_eq_true_2 by done.
  - intros getTime hosts games t Hin Ht.
    apply list_elem_of_fmap.
    exists (historyEntry t hosts (finalizeGame true teams feedbackData game)).
    split; [done|]. by apply elem_of_getTeamHistory.
Qed.

Lemma finalizeGame_effect_sample :
  let live := sampleGame Regular Live None false (Stage.mk 4 0 0) ["A"]
                [QuestionResult.mk 0 0 0 ["A"] 1] in
  let archived := finalizeGame true [sampleTeam "A"] [] live in
  archived ∈ HistoryEntry.game
               <$> getTeamHistory (λ _, 0) "A" [archived] None.
Proof.
  intros live archived.
  destruct (finalizeGame_effect [sampleTeam "A"] [] live)
    as (_ & _ & _ & _ & _ & _ & Hhistory & _).
  apply Hhistory.
  - apply list_elem_of_here.
  - by apply (bool_decide_unpack _).
Defined.

(** ** Seasons *)

Lemma list_find_active_fmap_false (seasons : list Season.t) :
  list_find (λ s, Season.isActive s = true)
    ((λ s, Season.mk (Season.id s) (Season.name s) false) <$> seasons) = None.
Proof.
  apply list_find_None, Forall_fmap, Forall_forall. by intros s _.
Qed.

Lemma filter_active_fmap_false (seasons : list Season.t) :
  filter (λ s, Season.isActive s = true)
    ((λ s, Season.mk (Season.id s) (Season.name s) false) <$> seasons) = [].
Proof. apply filter_none. intros s (x & -> & _)%list_elem_of_fmap. done. Qed.

Lemma currentSeason_only_active seasons a :
  filter (λ s, Season.isActive s = true) seasons = [a] → currentSeason seasons = a.
Proof.
  intros Hfilter. unfold currentSeason.
  destruct (list_find _ seasons) as [[i y]|] eqn:Hfind.
  - apply list_find_Some in Hfind as (Hi & Hy & _).
    assert (y ∈ filter (λ s, Season.isActive s = true) seasons) as Hyin.
    { apply list_elem_of_filter. split; [done|]. by eapply list_elem_of_lookup_2. }
    rewrite Hfilter in Hyin. by apply list_elem_of_singleton in Hyin.
  - apply list_find_None in Hfind. rewrite Forall_forall in Hfind.
    assert (a ∈ filter (λ s, Season.isActive s = true) seasons) as Ha
      by (rewrite Hfilter; left).
    apply list_elem_of_filter in Ha as [Hact Hin]. by destruct (Hfind a Hin).
Qed.

Lemma activateSeason_filter seasons s :
  s ∈ seasons → NoDup (Season.id <$> seasons) →
  filter (λ x, Season.isActive x = true) (activateSeason seasons s)
  = [Season.mk (Season.id s) (Season.name s) true].
Proof.
  unfold activateSeason.
  induction seasons as [|x seasons IH]; intros Hin Hnd;
    [by apply elem_of_nil in Hin|].
  rewrite fmap_cons in Hnd. apply NoDup_cons in Hnd as [Hx Hnd].
  rewrite fmap_cons, filter_cons. cbn [Season.isActive].
  apply elem_of_cons in Hin as [->|Hin].
  - rewrite bool_decide_eq_true_2 by done. rewrite decide_True by done.
    f_equal. apply filter_none.
    intros y (z & -> & Hz)%list_elem_of_fmap. cbn [Season.isActive].
    rewrite bool_decide_eq_false_2; [done|].
    intros Heq. apply Hx. rewrite <-Heq. by apply list_elem_of_fmap_2.
  - rewrite bool_decide_eq_false_2.
    + rewrite decide_False by done. by apply IH.
    + intros Heq. apply Hx. rewrite Heq. by apply list_elem_of_fmap_2.
Qed.

(** X25. A season added under a non-empty name becomes the only active season
    and the current one, after the existing seasons in unchanged order; an
    empty name adds nothing.  Setting a listed season active, when the
    identifiers are distinct, likewise leaves it the only active season and
    the current one.  With no season at all the current season is the
    fallback. *)
Theorem one_active_season (seasons : list Season.t) :
  (∀ name uuid, name ≠ "" →
     let seasons' := addSeason seasons name uuid in
     filter (λ s, Season.isActive s = true) seasons' = [Season.mk uuid name true]
     ∧ currentSeason seasons' = Season.mk uuid name true
     ∧ Season.id <$> seasons' = (Season.id <$> seasons) ++ [uuid])
  ∧ (∀ uuid, addSeason seasons "" uuid = seasons)
  ∧ (∀ s, s ∈ seasons → NoDup (Season.id <$> seasons) →
       let seasons' := activateSeason seasons s in
       filter (λ x, Season.isActive x = true) seasons'
         = [Season.mk (Season.id s) (Season.name s) true]
       ∧ currentSeason seasons' = Season.mk (Season.id s) (Season.name s) true
       ∧ Season.id <$> seasons' = Season.id <$> seasons)
  ∧ currentSeason [] = Season.mk "fallback" "Fallback Season" true.
Proof.
  split_and!; [| done | | done].
  - intros name uuid Hname seasons'. subst seasons'.
    assert (filter (λ s, Season.isActive s = true) (addSeason seasons name uuid)
            = [Season.mk uuid name true]) as Hfilter.
    { unfold addSeason. rewrite decide_False by done.
      by rewrite filter_app, filter_active_fmap_false. }
    split_and!; [done | by apply currentSeason_only_active |].
    unfold addSeason. rewrite decide_False by done.
    by rewrite fmap_app, <-list_fmap_compose.
  - intros s Hin Hnd seasons'. subst seasons'.
    pose proof (activateSeason_filter seasons s Hin Hnd) as Hfilter.
    split_and!; [done | by apply currentSeason_only_active |].
    unfold activateSeason. by rewrite <-list_fmap_compose.
Qed.

Lemma one_active_season_sample :
  let seasons := [Season.mk "s0" "Season 0" true] in
  currentSeason (addSeason seasons "Season 1" "s1") = Season.mk "s1" "Season 1" true.
Proof.
  intros seasons.
  by apply (proj1 (one_active_season seasons) "Season 1" "s1").
Defined.
